(** * The muxado session core

    A shallow embedding of [session.go]: the session state machine that
    multiplexes streams over one transport.  The embedding follows the Go
    source function by function.

    - [uint32] fields are integers in [Z]; the wrap-around of
      [atomic.AddUint32] and the bit tests are written out.
    - The session is a record with the fields of the Go struct.  Every
      method is a computation in the monad [M], which threads the session
      and can fail to return (a blocked channel or mutex operation).
    - Goroutines are not interleaved inside a method: one method call is one
      atomic transition, and the answers of the other goroutines (which case
      of a [select] fires, what the writer reports) are explicit arguments.
      [Module Shutdown] refines [die] and [Wait] into their separate steps
      and interleaves them.
    - The field [trace] is a ghost log of the effects on shared objects, in
      program order.
    - The stream handles ([streamPrivate]), the stream table, the error
      values and the frame package live outside [session.go]; they appear as
      interfaces (type classes) or as definitions modelled from the
      specification, and are marked as such. *)

From Stdlib Require Import ZArith Lia String List.
From Stdlib.Strings Require Import Byte.
From stdpp Require Import base option list gmap strings sorting.

Open Scope Z_scope.

(** ** Machine integers *)

(** Conversion to [uint32]; also the result of 32-bit unsigned arithmetic. *)
Definition uint32 (x : Z) : Z := x mod 2 ^ 32.

(** ** Errors *)

(** Modelled from the spec: the error codes are declared outside
    [session.go]; these are the codes "used at this layer", and
    [ErrorCodeOf] stands for any other numeric code carried by a frame. *)
Inductive ErrorCode :=
| NoError
| ProtocolError
| InternalError
| StreamClosed
| StreamRefused
| AcceptQueueFull
| ErrorCodeOf (n : Z).

(** Errors raised outside this package: by the transport ([io]) or by the
    frame codec. *)
Inductive ioerror :=
| io_EOF
| io_ErrUnexpectedEOF
| io_error (desc : string)
| FramingError (code : ErrorCode) (desc : string).

(** Go [error] values seen by the session.  The first four are the terminal
    sentinels of the package (declared outside [session.go]);
    [muxadoError] is the struct literal [&muxadoError{code, err}]. *)
Inductive error :=
| sessionClosed
| remoteGoneAway
| streamsExhausted
| writeTimeout
| muxadoError (code : ErrorCode) (err : error)
| fmt_Errorf (format : string) (args : list fmtarg)
| errors_New (text : string)
| foreign (e : ioerror)
with fmtarg :=
| ArgInt (n : Z)
| ArgErr (e : error).

(** Modelled from the spec: [newErr] is declared outside [session.go]; it
    pairs an error code with its cause. *)
Definition newErr (code : ErrorCode) (err : error) : error := muxadoError code err.

(** Modelled from the spec: [fromFrameError] is declared outside
    [session.go]; it brings an error of the codec into this package.  The
    reader compares its result with [io.EOF], so [io.EOF] stays itself. *)
Definition fromFrameError (e : ioerror) : error := foreign e.

Definition is_EOF (e : error) : bool :=
  match e with foreign io_EOF => true | _ => false end.

(** ** Package frame (outside [session.go]): the frames the session sees *)

Module frame.

(** Stream ids are [uint32]. *)
Abbreviation StreamId := Z (only parsing).

(** The body of a DATA frame is still on the transport when the frame is
    handed to the session: [Reader] is what reading it to the end yields,
    the bytes delivered and the error that cut them short, if any. *)
Record Reader := { delivered : list byte; fault : option ioerror }.

Record Data := {
  Data_StreamId : StreamId;
  Syn : bool;
  Fin : bool;
  Length : Z;
  Data_Reader : Reader }.

Record Rst := { Rst_StreamId : StreamId; Rst_ErrorCode : ErrorCode }.

Record WndInc := { WndInc_StreamId : StreamId; WndInc_Inc : Z }.

Record GoAway := {
  LastStreamId : StreamId;
  GoAway_ErrorCode : ErrorCode;
  Debug : list byte }.

Inductive Frame :=
| FData (f : Data)
| FRst (f : Rst)
| FWndInc (f : WndInc)
| FGoAway (f : GoAway)
| FUnknown.

End frame.

Import frame.

(** [io.Copy(ioutil.Discard, f.Reader())]: the reader is limited to
    [Length] bytes; the count read and the error ([io.EOF] is no error). *)
Definition io_Copy_Discard (f : Data) : Z * option ioerror :=
  let n := Z.min (Z.of_nat (length (delivered (Data_Reader f)))) (Length f) in
  (n, match fault (Data_Reader f) with
      | Some io_EOF => None
      | e => if n <? Length f then e else None
      end).

(** The [Pack] methods of the frame package can refuse their arguments;
    when they do not, the frame holds what was packed. *)
Class framePack := {
  Data_Pack : StreamId → list byte → bool → bool → option ioerror;
  Rst_Pack : StreamId → ErrorCode → option ioerror;
  GoAway_Pack : StreamId → ErrorCode → list byte → option ioerror }.

Definition packedData (id : StreamId) (data : list byte) (fin syn : bool) : Data :=
  {| Data_StreamId := id; Syn := syn; Fin := fin;
     Length := Z.of_nat (length data);
     Data_Reader := {| delivered := data; fault := None |} |}.

(** Error codes and messages of arbitrary errors ([GetError], [err.Error()]),
    both outside [session.go]. *)
Class errorText := {
  GetError : error → ErrorCode * option error;
  Error : error → string }.

(** ** Streams *)

(** The private interface [streamPrivate] through which the session calls
    its streams.  A method that mutates the stream returns the new stream.
    [newStream] is the [streamFactory]. *)
Class streamPrivate (stream : Type) := {
  Id : stream → StreamId;
  handleStreamData : stream → Data → stream * option error;
  handleStreamRst : stream → Rst → stream * option error;
  handleStreamWndInc : stream → WndInc → stream * option error;
  closeWith : stream → error → stream;
  newStream : StreamId → Z → bool → stream;
  Id_newStream : ∀ id windowSize fin, Id (newStream id windowSize fin) = id }.

(** ** Test doubles

    Concrete collaborators on which the session can be run: a stream that
    records what the session tells it, a frame package that packs every
    frame, and an error table. *)

Module Double.

Record stream := {
  sid : StreamId;
  window : Z;
  finished : bool;
  received : list Data;
  resets : list Rst;
  credits : list WndInc;
  closed : list error }.

Definition record_data (str : stream) (f : Data) : stream :=
  {| sid := sid str; window := window str; finished := finished str || Fin f;
     received := received str ++ [f]; resets := resets str; credits := credits str;
     closed := closed str |}.

Definition record_rst (str : stream) (f : Rst) : stream :=
  {| sid := sid str; window := window str; finished := finished str;
     received := received str; resets := resets str ++ [f]; credits := credits str;
     closed := closed str |}.

Definition record_wndinc (str : stream) (f : WndInc) : stream :=
  {| sid := sid str; window := window str + WndInc_Inc f; finished := finished str;
     received := received str; resets := resets str; credits := credits str ++ [f];
     closed := closed str |}.

Definition record_close (str : stream) (err : error) : stream :=
  {| sid := sid str; window := window str; finished := finished str;
     received := received str; resets := resets str; credits := credits str;
     closed := closed str ++ [err] |}.

Definition fresh (id : StreamId) (windowSize : Z) (fin : bool) : stream :=
  {| sid := id; window := windowSize; finished := fin; received := []; resets := [];
     credits := []; closed := [] |}.

#[export] Instance stream_private : streamPrivate stream := {|
  Id := sid;
  handleStreamData str f := (record_data str f, None);
  handleStreamRst str f := (record_rst str f, None);
  handleStreamWndInc str f := (record_wndinc str f, None);
  closeWith := record_close;
  newStream := fresh;
  Id_newStream _ _ _ := eq_refl |}.

#[export] Instance packs_all : framePack := {|
  Data_Pack _ _ _ _ := None;
  Rst_Pack _ _ := None;
  GoAway_Pack _ _ _ := None |}.

#[export] Instance error_text : errorText := {|
  GetError err :=
    match err with
    | muxadoError code cause => (code, Some cause)
    | _ => (InternalError, Some err)
    end;
  Error _ := "error"%string |}.

End Double.

(** ** Constants *)

Definition defaultWindowSize : Z := 0x10000.
Definition defaultAcceptQueueDepth : Z := 256.

(** Deadlines: [zeroTime] or [time.Now().Add(d)]. *)
Inductive Time :=
| zeroTime
| time_Now_Add (d : Z).

Definition IsZero (t : Time) : bool :=
  match t with zeroTime => true | _ => false end.

Definition Millisecond : Z := 1.

(** ** The session *)

(** State for each half of the session (remote and local). *)
Record halfState := {
  goneAway : Z;   (* uint32: 1 if that half has gone away *)
  lastId : Z      (* uint32: last id used/seen from one half *) }.

(** Effects on shared objects, logged in program order. *)
Inductive event :=
| EvLock                          (* s.newStreamMutex.Lock() *)
| EvUnlock                        (* s.newStreamMutex.Unlock() *)
| EvSet (id : StreamId)           (* s.streams.Set(id, str) *)
| EvDelete (id : StreamId)        (* s.streams.Delete(id) *)
| EvEnqueue (f : Frame)           (* s.writeFrames <- req *)
| EvGo (f : Frame)                (* go s.writeFrame(f, zeroTime) *)
| EvAccept (id : StreamId)        (* s.accept <- str *)
| EvDiscard (n : Z)               (* io.Copy(ioutil.Discard, ...) read n bytes *)
| EvDieErr (err : option error)   (* s.dieErr = err *)
| EvCloseDead                     (* close(s.dead) *)
| EvTransportClose                (* s.transport.Close() *)
| EvEachCloseWith (err : error)   (* s.streams.Each(... closeWith(err)) *)
| EvStreamData (id : StreamId) (f : Data)       (* str.handleStreamData(f) *)
| EvStreamRst (id : StreamId) (f : Rst)         (* str.handleStreamRst(f) *)
| EvStreamWndInc (id : StreamId) (f : WndInc)   (* str.handleStreamWndInc(f) *).

Section Session.

Context {stream : Type} `{!streamPrivate stream} `{!framePack} `{!errorText}.

Record session := {
  dieOnce : Z;                      (* uint32 *)
  local : halfState;
  remote : halfState;
  newStreamMutex : bool;            (* true when locked *)
  transportClosed : bool;
  streams : gmap Z stream;          (* the stream table *)
  accept : list StreamId;           (* buffered channel of accepted streams *)
  acceptClosed : bool;
  windowSize : Z;                   (* the field defaultWindowSize *)
  isLocal : StreamId → bool;
  dead : bool;                      (* true once the channel is closed *)
  dieErr : option error;
  remoteError : option error;
  remoteDebug : list byte;
  trace : list event }.

Definition set_dieOnce (v : Z) (s : session) : session :=
  {| dieOnce := v; local := local s; remote := remote s; newStreamMutex := newStreamMutex s;
     transportClosed := transportClosed s; streams := streams s; accept := accept s; acceptClosed
     := acceptClosed s; windowSize := windowSize s; isLocal := isLocal s; dead := dead s; dieErr
     := dieErr s; remoteError := remoteError s; remoteDebug := remoteDebug s; trace := trace s
     |}.

Definition set_local (v : halfState) (s : session) : session :=
  {| dieOnce := dieOnce s; local := v; remote := remote s; newStreamMutex := newStreamMutex s;
     transportClosed := transportClosed s; streams := streams s; accept := accept s; acceptClosed
     := acceptClosed s; windowSize := windowSize s; isLocal := isLocal s; dead := dead s; dieErr
     := dieErr s; remoteError := remoteError s; remoteDebug := remoteDebug s; trace := trace s
     |}.

Definition set_remote (v : halfState) (s : session) : session :=
  {| dieOnce := dieOnce s; local := local s; remote := v; newStreamMutex := newStreamMutex s;
     transportClosed := transportClosed s; streams := streams s; accept := accept s; acceptClosed
     := acceptClosed s; windowSize := windowSize s; isLocal := isLocal s; dead := dead s; dieErr
     := dieErr s; remoteError := remoteError s; remoteDebug := remoteDebug s; trace := trace s
     |}.

Definition set_newStreamMutex (v : bool) (s : session) : session :=
  {| dieOnce := dieOnce s; local := local s; remote := remote s; newStreamMutex := v;
     transportClosed := transportClosed s; streams := streams s; accept := accept s; acceptClosed
     := acceptClosed s; windowSize := windowSize s; isLocal := isLocal s; dead := dead s; dieErr
     := dieErr s; remoteError := remoteError s; remoteDebug := remoteDebug s; trace := trace s
     |}.

Definition set_transportClosed (v : bool) (s : session) : session :=
  {| dieOnce := dieOnce s; local := local s; remote := remote s; newStreamMutex :=
     newStreamMutex s; transportClosed := v; streams := streams s; accept := accept s;
     acceptClosed := acceptClosed s; windowSize := windowSize s; isLocal := isLocal s; dead :=
     dead s; dieErr := dieErr s; remoteError := remoteError s; remoteDebug := remoteDebug s;
     trace := trace s |}.

Definition set_streams (v : gmap Z stream) (s : session) : session :=
  {| dieOnce := dieOnce s; local := local s; remote := remote s; newStreamMutex :=
     newStreamMutex s; transportClosed := transportClosed s; streams := v; accept := accept s;
     acceptClosed := acceptClosed s; windowSize := windowSize s; isLocal := isLocal s; dead :=
     dead s; dieErr := dieErr s; remoteError := remoteError s; remoteDebug := remoteDebug s;
     trace := trace s |}.

Definition set_accept (v : list StreamId) (s : session) : session :=
  {| dieOnce := dieOnce s; local := local s; remote := remote s; newStreamMutex :=
     newStreamMutex s; transportClosed := transportClosed s; streams := streams s; accept := v;
     acceptClosed := acceptClosed s; windowSize := windowSize s; isLocal := isLocal s; dead :=
     dead s; dieErr := dieErr s; remoteError := remoteError s; remoteDebug := remoteDebug s;
     trace := trace s |}.

Definition set_acceptClosed (v : bool) (s : session) : session :=
  {| dieOnce := dieOnce s; local := local s; remote := remote s; newStreamMutex :=
     newStreamMutex s; transportClosed := transportClosed s; streams := streams s; accept :=
     accept s; acceptClosed := v; windowSize := windowSize s; isLocal := isLocal s; dead := dead
     s; dieErr := dieErr s; remoteError := remoteError s; remoteDebug := remoteDebug s; trace :=
     trace s |}.

Definition set_dead (v : bool) (s : session) : session :=
  {| dieOnce := dieOnce s; local := local s; remote := remote s; newStreamMutex :=
     newStreamMutex s; transportClosed := transportClosed s; streams := streams s; accept :=
     accept s; acceptClosed := acceptClosed s; windowSize := windowSize s; isLocal := isLocal s;
     dead := v; dieErr := dieErr s; remoteError := remoteError s; remoteDebug := remoteDebug s;
     trace := trace s |}.

Definition set_dieErr (v : option error) (s : session) : session :=
  {| dieOnce := dieOnce s; local := local s; remote := remote s; newStreamMutex :=
     newStreamMutex s; transportClosed := transportClosed s; streams := streams s; accept :=
     accept s; acceptClosed := acceptClosed s; windowSize := windowSize s; isLocal := isLocal s;
     dead := dead s; dieErr := v; remoteError := remoteError s; remoteDebug := remoteDebug s;
     trace := trace s |}.

Definition set_remoteError (v : option error) (s : session) : session :=
  {| dieOnce := dieOnce s; local := local s; remote := remote s; newStreamMutex :=
     newStreamMutex s; transportClosed := transportClosed s; streams := streams s; accept :=
     accept s; acceptClosed := acceptClosed s; windowSize := windowSize s; isLocal := isLocal s;
     dead := dead s; dieErr := dieErr s; remoteError := v; remoteDebug := remoteDebug s; trace :=
     trace s |}.

Definition set_remoteDebug (v : list byte) (s : session) : session :=
  {| dieOnce := dieOnce s; local := local s; remote := remote s; newStreamMutex :=
     newStreamMutex s; transportClosed := transportClosed s; streams := streams s; accept :=
     accept s; acceptClosed := acceptClosed s; windowSize := windowSize s; isLocal := isLocal s;
     dead := dead s; dieErr := dieErr s; remoteError := remoteError s; remoteDebug := v; trace :=
     trace s |}.

Definition set_trace (v : list event) (s : session) : session :=
  {| dieOnce := dieOnce s; local := local s; remote := remote s; newStreamMutex :=
     newStreamMutex s; transportClosed := transportClosed s; streams := streams s; accept :=
     accept s; acceptClosed := acceptClosed s; windowSize := windowSize s; isLocal := isLocal s;
     dead := dead s; dieErr := dieErr s; remoteError := remoteError s; remoteDebug := remoteDebug
     s; trace := v |}.


Definition set_goneAway (v : Z) (h : halfState) : halfState :=
  {| goneAway := v; lastId := lastId h |}.

Definition set_lastId (v : Z) (h : halfState) : halfState :=
  {| goneAway := goneAway h; lastId := v |}.

(** ** The monad of session methods *)

(** A method takes the session and returns a value and the new session, or
    does not return ([None]): it is blocked on a channel or on the mutex. *)
Definition M (A : Type) : Type := session → option (A * session).

#[local] Instance M_ret : MRet M := λ A a s, Some (a, s).

#[local] Instance M_bind : MBind M := λ A B f m s,
  match m s with
  | Some (a, s') => f a s'
  | None => None
  end.

Definition get : M session := λ s, Some (s, s).
Definition modify (f : session → session) : M unit := λ s, Some (tt, f s).
Definition block {A : Type} : M A := λ _, None.
Definition log (e : event) : M unit := modify (λ s, set_trace (trace s ++ [e]) s).

(** *** Pointers to [uint32] fields and the atomic operations on them *)

Record ref := { rd : session → Z; wr : Z → session → session }.

Definition ref_dieOnce : ref := {| rd := dieOnce; wr := set_dieOnce |}.

Definition ref_local_goneAway : ref :=
  {| rd s := goneAway (local s); wr v s := set_local (set_goneAway v (local s)) s |}.

Definition ref_local_lastId : ref :=
  {| rd s := lastId (local s); wr v s := set_local (set_lastId v (local s)) s |}.

Definition ref_remote_goneAway : ref :=
  {| rd s := goneAway (remote s); wr v s := set_remote (set_goneAway v (remote s)) s |}.

Definition ref_remote_lastId : ref :=
  {| rd s := lastId (remote s); wr v s := set_remote (set_lastId v (remote s)) s |}.

Definition atomic_LoadUint32 (p : ref) : M Z := λ s, Some (rd p s, s).

Definition atomic_StoreUint32 (p : ref) (v : Z) : M unit := modify (wr p v).

Definition atomic_AddUint32 (p : ref) (delta : Z) : M Z := λ s,
  let v := uint32 (rd p s + delta) in Some (v, wr p v s).

Definition atomic_CompareAndSwapUint32 (p : ref) (old new : Z) : M bool := λ s,
  if rd p s =? old then Some (true, wr p new s) else Some (false, s).

(** *** The mutex [newStreamMutex] *)

Definition Lock : M unit := λ s,
  if newStreamMutex s then None
  else Some (tt, set_trace (trace s ++ [EvLock]) (set_newStreamMutex true s)).

Definition Unlock : M unit :=
  modify (set_newStreamMutex false);; log EvUnlock.

(** *** The stream table *)

(** Modelled from the spec: the stream table ([streamMap]) is declared
    outside [session.go]: "a concurrent mapping from 31-bit stream ID to
    stream handle; supports atomic insert, lookup, delete, and snapshot
    iteration". *)
Definition streams_Set (id : StreamId) (str : stream) : M unit :=
  modify (λ s, set_streams (<[id := str]> (streams s)) s);; log (EvSet id).

Definition streams_Get (id : StreamId) : M (option stream) := λ s,
  Some (streams s !! id, s).

Definition streams_Delete (id : StreamId) : M unit :=
  modify (λ s, set_streams (delete id (streams s)) s);; log (EvDelete id).

(** [Each] calls [fn] on every entry; [fn] returns the stream as it has
    left it. *)
Definition streams_Each (fn : StreamId → stream → stream) : M unit :=
  modify (λ s, set_streams (map_imap (λ id str, Some (fn id str)) (streams s)) s).

(** A method called on a stream of the table changes that stream in place;
    [r] is what the method makes of the stream and what it returns. *)
Definition call {R : Type} (id : StreamId) (ev : event) (r : stream * R) : M R :=
  log ev;; modify (λ s, set_streams (<[id := fst r]> (streams s)) s);; mret (snd r).

(** *** Parity *)

(** Check if a stream id is for a client stream. Client streams are odd. *)
Definition isClient (id : StreamId) : bool := Z.land (uint32 id) 1 =? 1.

Definition isServer (id : StreamId) : bool := negb (isClient id).

(** *** Construction *)

Definition newSession (isClientRole : bool) : session :=
  let sess :=
    {| dieOnce := 0;
       local := {| goneAway := 0; lastId := 0 |};
       remote := {| goneAway := 0; lastId := 0 |};
       newStreamMutex := false;
       transportClosed := false;
       streams := ∅;
       accept := [];
       acceptClosed := false;
       windowSize := defaultWindowSize;
       isLocal := if isClientRole then isClient else isServer;
       dead := false;
       dieErr := None;
       remoteError := None;
       remoteDebug := [];
       trace := [] |} in
  if isClientRole
  then wr ref_local_lastId (uint32 (rd ref_local_lastId sess + 1)) sess
  else wr ref_remote_lastId (uint32 (rd ref_remote_lastId sess + 1)) sess.

Definition Client : session := newSession true.

Definition Server : session := newSession false.

(** *** Writing frames *)

(** What the other goroutines do to a [writeFrame] call: the request is
    queued and the writer calls back with the result of [WriteFrame]; or
    [dead] fires in the first select ([queued = false]) or in the second;
    or the timer does. *)
Inductive write_outcome :=
| Written (r : option ioerror)
| SessionDead (queued : bool)
| TimedOut (queued : bool).

Definition enqueue (queued : bool) (f : Frame) : M unit :=
  if queued then log (EvEnqueue f) else mret tt.

(** [writeFrame] writes the given frame to the framer and returns the error
    from the write operation.  The [dead] case needs the channel closed,
    the timer case needs a deadline. *)
Definition writeFrame (w : write_outcome) (f : Frame) (dl : Time) : M (option error) :=
  match w with
  | Written r => enqueue true f;; mret (fromFrameError <$> r)
  | SessionDead queued =>
      s ← get;
      if dead s then enqueue queued f;; mret (Some sessionClosed) else block
  | TimedOut queued =>
      if IsZero dl then block else enqueue queued f;; mret (Some writeTimeout)
  end.

Definition writeFrameSync (w : write_outcome) (f : Frame) (dl : Time) : M (option error) :=
  writeFrame w f dl.

(** Like [writeFrame] but it returns immediately: the write runs in a
    goroutine of its own. *)
Definition writeFrameAsync (f : Frame) : M (option error) :=
  log (EvGo f);; mret None.

(** *** Public interface *)

Definition GoAway (w : write_outcome) (errCode : ErrorCode) (debug : list byte)
    (dl : Time) : M (option error) :=
  atomic_StoreUint32 ref_local_goneAway 1;;
  remoteId ← atomic_LoadUint32 ref_remote_lastId;
  match GoAway_Pack remoteId errCode debug with
  | Some err => mret (Some (fromFrameError err))
  | None =>
      let f := FGoAway {| LastStreamId := remoteId; GoAway_ErrorCode := errCode;
                          Debug := debug |} in
      err ← writeFrameSync w f dl;
      match err with
      | Some err => mret (Some err)
      | None => mret None
      end
  end.

(** [die] closes the session cleanly with the given error. *)
Definition die (w : write_outcome) (err : option error) : M (option error) :=
  swapped ← atomic_CompareAndSwapUint32 ref_dieOnce 0 1;
  if negb swapped then mret (Some sessionClosed) else
  let '(errorCode, debug) :=
    match err with
    | None => (NoError, list_byte_of_string "no error")
    | Some e => (fst (GetError e), list_byte_of_string (Error e))
    end in
  GoAway w errorCode debug (time_Now_Add (250 * Millisecond));;
  modify (set_dieErr err);; log (EvDieErr err);;
  modify (set_dead true);; log EvCloseDead;;
  modify (set_transportClosed true);; log EvTransportClose;;
  streams_Each (λ id str, closeWith str (fmt_Errorf "Session closed" []));;
  log (EvEachCloseWith (fmt_Errorf "Session closed" []));;
  mret None.

Definition Close (w : write_outcome) : M (option error) := die w None.

Definition OpenStream (w : write_outcome) : M (error + stream) :=
  g ← atomic_LoadUint32 ref_remote_goneAway;
  if g =? 1 then mret (inl remoteGoneAway) else
  Lock;;
  nextId ← atomic_AddUint32 ref_local_lastId 2;
  if Z.land nextId (Z.shiftl 1 31) >? 0 then mret (inl streamsExhausted) else
  s ← get;
  let str := newStream nextId (windowSize s) false in
  streams_Set nextId str;;
  match Data_Pack nextId [] false true with
  | Some err => Unlock;; mret (inl (newErr InternalError (foreign err)))
  | None =>
      let f := FData (packedData nextId [] false true) in
      err ← writeFrame w f zeroTime;
      Unlock;;
      match err with
      | Some err => mret (inl err)
      | None => mret (inr str)
      end
  end.

Definition Open (w : write_outcome) : M (error + stream) := OpenStream w.

(** [Wait] blocks until [dead] is closed. *)
Definition Wait : M (option error * option error * list byte) := λ s,
  if dead s then Some ((dieErr s, remoteError s, remoteDebug s), s) else None.

(** The channel carries the handle of the stream: its entry in the table
    is named by the id under which the session stored it. *)
Definition AcceptStream : M (error + StreamId) := λ s,
  match accept s with
  | id :: rest => Some (inr id, set_accept rest s)
  | [] =>
      if acceptClosed s then
        ('(err, _, _) ← Wait;
         match err with
         | None => mret (inl (fmt_Errorf "session closed by remote peer" []))
         | Some err => mret (inl (fmt_Errorf "session closed with error: %v" [ArgErr err]))
         end) s
      else None
  end.

Definition Accept : M (error + StreamId) := AcceptStream.

(** [removeStream] removes a stream from this session's stream registry. *)
Definition removeStream (id : StreamId) : M unit := streams_Delete id.

(** *** Internal methods: the reader's dispatch *)

(** [getStream]: decide if this id is in the "idle" state (greater than any
    seen for that parity), then find the stream in the stream map. *)
Definition getStream (w : write_outcome) (id : StreamId) : M (option stream) :=
  s ← get;
  let lastId := if isLocal s id then ref_local_lastId else ref_remote_lastId in
  last ← atomic_LoadUint32 lastId;
  (if uint32 id >? last
   then die w (Some (newErr ProtocolError
                       (fmt_Errorf "%d is an invalid, unassigned stream id" [ArgInt id])));;
        mret tt
   else mret tt);;
  streams_Get id.

(** Which case of the select on the accept channel fires.  The send needs
    room in the channel; without room the timer fires. *)
Inductive accept_outcome :=
| AcceptSent
| AcceptTimedOut.

Definition accept_send (o : accept_outcome) (id : StreamId) : M bool := λ s,
  match o with
  | AcceptSent =>
      if Z.of_nat (length (accept s)) <? defaultAcceptQueueDepth
      then Some (true, set_trace (trace s ++ [EvAccept id]) (set_accept (accept s ++ [id]) s))
      else Some (false, s)
  | AcceptTimedOut => Some (false, s)
  end.

Definition handleSyn (o : accept_outcome) (f : Data) : M (option error) :=
  (* if we're going away, refuse new streams *)
  g ← atomic_LoadUint32 ref_local_goneAway;
  if g =? 1 then
    match Rst_Pack (Data_StreamId f) StreamRefused with
    | Some err =>
        mret (Some (newErr InternalError
                      (fmt_Errorf "failed to pack stream refused RST: %v" [ArgErr (foreign err)])))
    | None =>
        writeFrameAsync (FRst {| Rst_StreamId := Data_StreamId f;
                                 Rst_ErrorCode := StreamRefused |});;
        mret None
    end
  else
  lastRemoteId ← atomic_LoadUint32 ref_remote_lastId;
  if Data_StreamId f <? lastRemoteId then
    mret (Some (newErr ProtocolError
                  (fmt_Errorf "initiated stream id 0x%x is less than last remote id: 0x%x"
                     [ArgInt (Data_StreamId f); ArgInt lastRemoteId])))
  else
  s ← get;
  if isLocal s (Data_StreamId f) then
    mret (Some (newErr ProtocolError
                  (fmt_Errorf "initiated stream id has wrong parity for remote endpoint: 0x%x"
                     [ArgInt (Data_StreamId f)])))
  else
  (* update last remote id *)
  atomic_StoreUint32 ref_remote_lastId (uint32 (Data_StreamId f));;
  (* make the new stream and add it to the stream map *)
  let str := newStream (Data_StreamId f) (windowSize s) (Fin f) in
  streams_Set (Data_StreamId f) str;;
  (* put the new stream on the accept channel *)
  sent ← accept_send o (Data_StreamId f);
  let deliver :=
    call (Data_StreamId f) (EvStreamData (Data_StreamId f) f) (handleStreamData str f) in
  if (sent : bool) then deliver else
  (* accept queue is full *)
  match Rst_Pack (Data_StreamId f) AcceptQueueFull with
  | Some err =>
      mret (Some (newErr InternalError
                    (fmt_Errorf "failed to pack accept overflow RST: %v" [ArgErr (foreign err)])))
  | None =>
      writeFrameAsync (FRst {| Rst_StreamId := Data_StreamId f;
                               Rst_ErrorCode := AcceptQueueFull |});;
      deliver
  end.

Definition handleFrame (w : write_outcome) (o : accept_outcome) (rf : Frame)
  : M (option error) :=
  match rf with
  | FData f =>
      if Syn f then handleSyn o f else
      str ← getStream w (Data_StreamId f);
      match str with
      | None =>
          (* read out the frame body so that the stream stays in a good state *)
          let '(n, err) := io_Copy_Discard f in
          log (EvDiscard n);;
          match err with
          | Some err => mret (Some (foreign err))
          | None =>
              if uint32 n <? Length f then mret (Some (foreign io_ErrUnexpectedEOF)) else
              (* DATA frames on closed connections are just stream-level errors *)
              match Rst_Pack (Data_StreamId f) StreamClosed with
              | Some err =>
                  mret (Some (newErr InternalError
                                (fmt_Errorf "failed to pack data on closed stream RST: %v"
                                   [ArgErr (foreign err)])))
              | None =>
                  writeFrameAsync (FRst {| Rst_StreamId := Data_StreamId f;
                                           Rst_ErrorCode := StreamClosed |});;
                  mret None
              end
          end
      | Some str =>
          call (Data_StreamId f) (EvStreamData (Data_StreamId f) f) (handleStreamData str f)
      end
  | FRst f =>
      str ← getStream w (Rst_StreamId f);
      match str with
      | Some str =>
          call (Rst_StreamId f) (EvStreamRst (Rst_StreamId f) f) (handleStreamRst str f)
      | None => mret None
      end
  | FWndInc f =>
      str ← getStream w (WndInc_StreamId f);
      match str with
      | Some str =>
          call (WndInc_StreamId f) (EvStreamWndInc (WndInc_StreamId f) f)
            (handleStreamWndInc str f)
      | None => mret None
      end
  | FGoAway f =>
      atomic_StoreUint32 ref_remote_goneAway 1;;
      modify (set_remoteDebug (Debug f));;
      modify (set_remoteError
                (Some (muxadoError (GoAway_ErrorCode f)
                         (errors_New (string_of_list_byte (Debug f))))));;
      let lastId := LastStreamId f in
      s ← get;
      streams_Each (λ id str,
        (* close all streams that we opened above the last handled id *)
        let sid := Id str in
        if isLocal s sid && (sid >? lastId) then closeWith str remoteGoneAway else str);;
      mret None
  | FUnknown => mret None
  end.

(** One iteration of the loop of [reader]: [rx] is what [ReadFrame]
    returns; the result tells whether the loop goes on. *)
Definition reader_iter (w : write_outcome) (o : accept_outcome) (rx : ioerror + Frame)
  : M bool :=
  match rx with
  | inl err =>
      let err := fromFrameError err in
      (if is_EOF err then die w None else die w (Some err));;
      mret false
  | inr f =>
      err ← handleFrame w o f;
      match err with
      | Some err => die w (Some err);; mret false
      | None => s ← get; mret (negb (dead s))
      end
  end.

(** [reader] reads frames from the transport until an iteration returns;
    the accept channel is closed on the way out.  With no input left the
    reader is blocked in [ReadFrame]. *)
Fixpoint reader (inputs : list (write_outcome * accept_outcome * (ioerror + Frame)))
  : M unit :=
  match inputs with
  | [] => block
  | (w, o, rx) :: rest =>
      continue ← reader_iter w o rx;
      if (continue : bool) then reader rest
      else modify (λ s, {| dieOnce := dieOnce s; local := local s; remote := remote s;
                           newStreamMutex := newStreamMutex s;
                           transportClosed := transportClosed s; streams := streams s;
                           accept := accept s; acceptClosed := true;
                           windowSize := windowSize s; isLocal := isLocal s;
                           dead := dead s; dieErr := dieErr s;
                           remoteError := remoteError s; remoteDebug := remoteDebug s;
                           trace := trace s |})
  end.

(** ** Runs of a session *)

(** The calls that the users of a session, its streams and its two
    goroutines make on it. *)
Inductive op :=
| CallOpenStream (w : write_outcome)
| CallAcceptStream
| CallClose (w : write_outcome)
| CallGoAway (w : write_outcome) (errCode : ErrorCode) (debug : list byte) (dl : Time)
| CallWait
| CallRemoveStream (id : StreamId)
| CallDie (w : write_outcome) (err : option error)
| ReaderIter (w : write_outcome) (o : accept_outcome) (rx : ioerror + Frame).

Definition after {A : Type} (m : M A) (s : session) : session :=
  match m s with
  | Some (_, s') => s'
  | None => s
  end.

Definition run (c : op) : session → session :=
  match c with
  | CallOpenStream w => after (OpenStream w)
  | CallAcceptStream => after AcceptStream
  | CallClose w => after (Close w)
  | CallGoAway w errCode debug dl => after (GoAway w errCode debug dl)
  | CallWait => after Wait
  | CallRemoveStream id => after (removeStream id)
  | CallDie w err => after (die w err)
  | ReaderIter w o rx => after (reader_iter w o rx)
  end.

Inductive reachable : session → Prop :=
| reachable_new (isClientRole : bool) : reachable (newSession isClientRole)
| reachable_run (c : op) (s : session) : reachable s → reachable (run c s).

Definition runs (cs : list op) (s : session) : session := foldl (λ s c, run c s) s cs.

(** The two halves of a session by role: the client half is the local one
    on a client and the remote one on a server. *)
Definition clientHalf (isClientRole : bool) (s : session) : halfState :=
  if isClientRole then local s else remote s.

Definition serverHalf (isClientRole : bool) (s : session) : halfState :=
  if isClientRole then remote s else local s.

(** What holds in every state of a run. *)
Record invariant (s : session) : Prop := {
  inv_role : isLocal s = isClient ∨ isLocal s = isServer;
  inv_window : windowSize s = defaultWindowSize;
  inv_parity : isLocal s (lastId (local s)) = true;
  inv_lastId : 0 ≤ lastId (local s) ≤ 2 ^ 31 + 1;
  inv_mutex : newStreamMutex s = false → lastId (local s) < 2 ^ 31;
  inv_dieOnce : dieOnce s = 0 ∨ dieOnce s = 1;
  inv_alive : dieOnce s = 0 → dead s = false ∧ dieErr s = None;
  inv_dead : dead s = true → dieOnce s = 1 }.

(** ** Vocabulary of the theorems *)

Definition sessionClosedError : error := fmt_Errorf "Session closed" [].

(** The steps of the shutdown sequence, as [die] logs them after the
    best-effort GOAWAY. *)
Definition shutdown_steps (err : option error) : list event :=
  [EvDieErr err; EvCloseDead; EvTransportClose; EvEachCloseWith sessionClosedError].

(** The GOAWAY frame that [die] tries to send. *)
Definition dieGoAway (err : option error) (s : session) : Frame :=
  FGoAway {| LastStreamId := lastId (remote s);
             GoAway_ErrorCode := match err with None => NoError | Some e => (GetError e).1 end;
             Debug := match err with
                      | None => list_byte_of_string "no error"
                      | Some e => list_byte_of_string (Error e)
                      end |}.

(** Nothing resets [dieOnce], and once it is set nothing changes [dieErr]
    or [dead]. *)
Definition shut (s s' : session) : Prop :=
  dieOnce s ≠ 0 → dieOnce s' = dieOnce s ∧ dieErr s' = dieErr s ∧ dead s' = dead s.


(** [handleSyn] accepts a SYN when it goes on to create the stream: the
    first thing it does then to a shared object other than [remote.lastId]
    is to put the stream into the table. *)
Definition accepted (f : Data) (s s' : session) : Prop :=
  ∃ t, trace s' = trace s ++ EvSet (Data_StreamId f) :: t.

(** The events that a call has added to the trace. *)
Definition new_events (s s' : session) : list event := drop (length (trace s)) (trace s').

(** The body of a DATA frame has been taken off the transport when the
    session has discarded all of it, or has handed the frame to the stream
    that reads it. *)
Definition consumed (f : Data) (t : list event) : Prop :=
  EvDiscard (Length f) ∈ t ∨ EvStreamData (Data_StreamId f) f ∈ t.

(** The RST frame the session answers with. *)
Definition rstFrame (id : StreamId) (code : ErrorCode) : Frame :=
  FRst {| Rst_StreamId := id; Rst_ErrorCode := code |}.

(** The stream a frame is addressed to, for the frames that [handleFrame]
    looks up with [getStream]. *)
Definition target (rf : Frame) : option StreamId :=
  match rf with
  | FData f => if Syn f then None else Some (Data_StreamId f)
  | FRst f => Some (Rst_StreamId f)
  | FWndInc f => Some (WndInc_StreamId f)
  | FGoAway _ | FUnknown => None
  end.

(** The error with which [getStream] shuts the session down. *)
Definition unassigned (id : StreamId) : error :=
  newErr ProtocolError (fmt_Errorf "%d is an invalid, unassigned stream id" [ArgInt id]).

(** ** The steps of [die] and [Wait], interleaved

    [die] and [Wait] are the two methods whose statements are separated by
    the other goroutines in a way that matters: [die] stores [dieErr] and
    then closes [dead]; [Wait] receives from [dead] and then reads the
    fields.  Here each of their statements is a step of its own, and the
    steps of any number of calls are interleaved with each other and with
    the other calls on the session. *)

(** The statement of [die] a call is about to run. *)
Inductive die_pc :=
| AtCas            (* atomic.CompareAndSwapUint32(&s.dieOnce, 0, 1) *)
| AtGoAway         (* s.GoAway(errorCode, debug, ...) *)
| AtStore          (* s.dieErr = err *)
| AtClose          (* close(s.dead) *)
| AtTransport      (* s.transport.Close() *)
| AtEach           (* s.streams.Each(...) *).

Inductive thread :=
| Dying (pc : die_pc) (w : write_outcome) (err : option error)
| Died (r : option error)                                      (* die has returned r *)
| WaitDead                                                     (* <-s.dead *)
| WaitDieErr                                                   (* reads s.dieErr *)
| WaitRemoteError (e : option error)                           (* reads s.remoteError *)
| WaitRemoteDebug (e : option error) (re : option error)       (* reads s.remoteDebug *)
| Waited (v : option error * option error * list byte)         (* Wait has returned v *).

Definition die_step (pc : die_pc) (w : write_outcome) (err : option error)
  : M thread :=
  match pc with
  | AtCas =>
      swapped ← atomic_CompareAndSwapUint32 ref_dieOnce 0 1;
      if negb swapped then mret (Died (Some sessionClosed)) else mret (Dying AtGoAway w err)
  | AtGoAway =>
      let '(errorCode, debug) :=
        match err with
        | None => (NoError, list_byte_of_string "no error")
        | Some e => (fst (GetError e), list_byte_of_string (Error e))
        end in
      GoAway w errorCode debug (time_Now_Add (250 * Millisecond));;
      mret (Dying AtStore w err)
  | AtStore => modify (set_dieErr err);; log (EvDieErr err);; mret (Dying AtClose w err)
  | AtClose => modify (set_dead true);; log EvCloseDead;; mret (Dying AtTransport w err)
  | AtTransport =>
      modify (set_transportClosed true);; log EvTransportClose;; mret (Dying AtEach w err)
  | AtEach =>
      streams_Each (λ id str, closeWith str (fmt_Errorf "Session closed" []));;
      log (EvEachCloseWith (fmt_Errorf "Session closed" []));;
      mret (Died None)
  end.

(** One step of a thread; a thread that has returned stays as it is. *)
Definition thread_step (t : thread) : M thread :=
  match t with
  | Dying pc w err => die_step pc w err
  | WaitDead => s ← get; if dead s then mret WaitDieErr else block
  | WaitDieErr => s ← get; mret (WaitRemoteError (dieErr s))
  | WaitRemoteError e => s ← get; mret (WaitRemoteDebug e (remoteError s))
  | WaitRemoteDebug e re => s ← get; mret (Waited (e, re, remoteDebug s))
  | Died _ | Waited _ => mret t
  end.

(** A thread running alone for [n] steps. *)
Fixpoint alone (n : nat) (t : thread) : M thread :=
  match n with
  | O => mret t
  | S n => t' ← thread_step t; alone n t'
  end.

(** The session and the calls of [die] and [Wait] in progress on it. *)
Record system := { shared : session; threads : list thread }.

Definition starting (t : thread) : Prop :=
  t = WaitDead ∨ ∃ w err, t = Dying AtCas w err.

Inductive step : system → system → Prop :=
| step_thread (σ : system) (i : nat) (t t' : thread) (s' : session) :
    threads σ !! i = Some t →
    thread_step t (shared σ) = Some (t', s') →
    step σ {| shared := s'; threads := <[i := t']> (threads σ) |}
| step_call (σ : system) (c : op) :
    step σ {| shared := run c (shared σ); threads := threads σ |}
| step_start (σ : system) (t : thread) :
    starting t →
    step σ {| shared := shared σ; threads := threads σ ++ [t] |}.

Definition initial (isClientRole : bool) : system :=
  {| shared := newSession isClientRole; threads := [] |}.

(** A call of [die] has won when it is past the compare-and-swap. *)
Definition won (t : thread) : bool :=
  match t with
  | Dying AtCas _ _ => false
  | Dying _ _ _ => true
  | Died None => true
  | _ => false
  end.

(** What each thread can rely on, by the statement it has reached. *)
Definition thread_ok (s : session) (t : thread) : Prop :=
  match t with
  | Dying AtCas _ _ => True
  | Dying AtGoAway _ _ | Dying AtStore _ _ => dieOnce s = 1 ∧ dead s = false
  | Dying AtClose _ err => dieOnce s = 1 ∧ dead s = false ∧ dieErr s = err
  | Dying AtTransport _ err | Dying AtEach _ err =>
      dieOnce s = 1 ∧ dead s = true ∧ dieErr s = err
  | Died None => dieOnce s = 1 ∧ dead s = true
  | Died (Some _) => True
  | WaitDead => True
  | WaitDieErr => dead s = true
  | WaitRemoteError e | WaitRemoteDebug e _ | Waited (e, _, _) =>
      dead s = true ∧ e = dieErr s
  end.

Record system_invariant (σ : system) : Prop := {
  sys_session : invariant (shared σ);
  sys_threads : ∀ i t, threads σ !! i = Some t → thread_ok (shared σ) t;
  sys_winner : ∀ i j ti tj,
    threads σ !! i = Some ti → threads σ !! j = Some tj →
    won ti = true → won tj = true → i = j }.

(** Two sessions with the same shutdown state. *)
Definition same_shutdown (s s' : session) : Prop :=
  dieOnce s' = dieOnce s ∧ dead s' = dead s ∧ dieErr s' = dieErr s.

(** A call of [Wait] that is past the receive from [dead]. *)
Definition woken (t : thread) : bool :=
  match t with
  | WaitDieErr | WaitRemoteError _ | WaitRemoteDebug _ _ | Waited _ => true
  | _ => false
  end.

(** ** The writer goroutine *)



(** ** Vocabulary of the further theorems *)

(** The stream a frame is for is a [uint32], as its Go type says. *)
Definition uint32_id (id : StreamId) : Prop := 0 ≤ id < 2 ^ 32.

Definition frame_typed (rf : Frame) : Prop :=
  match rf with
  | FData f => uint32_id (Data_StreamId f)
  | FRst f => uint32_id (Rst_StreamId f)
  | FWndInc f => uint32_id (WndInc_StreamId f)
  | FGoAway f => uint32_id (LastStreamId f)
  | FUnknown => True
  end.

Definition op_typed (c : op) : Prop :=
  match c with
  | ReaderIter _ _ (inr rf) => frame_typed rf
  | _ => True
  end.

(** Every stream of the table sits under an id that has been used: a
    [uint32] not above [lastId] of its half. *)
Definition table_bounded (s : session) : Prop :=
  ∀ id str, streams s !! id = Some str →
    uint32_id id ∧ id ≤ lastId (if isLocal s id then local s else remote s).

(** The ids of the SYN frames handed to the writer, in the order of the
    trace. *)
Definition syn_ids (t : list event) : list StreamId :=
  omap (λ e, match e with
             | EvEnqueue (FData f) => if Syn f then Some (Data_StreamId f) else None
             | _ => None
             end) t.

(** How often [dead] is closed in a trace. *)
Definition is_close (e : event) : bool :=
  match e with EvCloseDead => true | _ => false end.

Definition closes (t : list event) : nat := length (List.filter is_close t).

(** What a stream makes of a frame that [handleFrame] hands to it: the
    stream as it leaves it, and the error it returns. *)
Definition deliver (str : stream) (rf : Frame) : option (stream * option error) :=
  match rf with
  | FData f => if Syn f then None else Some (handleStreamData str f)
  | FRst f => Some (handleStreamRst str f)
  | FWndInc f => Some (handleStreamWndInc str f)
  | FGoAway _ | FUnknown => None
  end.

(** The call that [handleFrame] logs for it. *)
Definition delivery (rf : Frame) : list event :=
  match rf with
  | FData f => [EvStreamData (Data_StreamId f) f]
  | FRst f => [EvStreamRst (Rst_StreamId f) f]
  | FWndInc f => [EvStreamWndInc (WndInc_StreamId f) f]
  | FGoAway _ | FUnknown => []
  end.

(** The error [AcceptStream] makes of the cause of the shutdown. *)
Definition acceptError (cause : option error) : error :=
  match cause with
  | None => fmt_Errorf "session closed by remote peer" []
  | Some err => fmt_Errorf "session closed with error: %v" [ArgErr err]
  end.

(** The cause of the shutdown after a failed [ReadFrame]. *)
Definition readCause (err : ioerror) : option error :=
  if is_EOF (fromFrameError err) then None else Some (fromFrameError err).

(** A condition on the frames that the reader hands to [handleFrame]. *)
Definition op_frames (Q : Frame → Prop) (c : op) : Prop :=
  match c with
  | ReaderIter _ _ (inr rf) => Q rf
  | _ => True
  end.

(** A property of sessions that the bookkeeping of the session cannot
    break: it does not depend on the trace, the recorded errors or the
    shutdown flags, survives the setting of a [goneAway] flag, and survives
    changes of the stream table that add no stream. *)
Record robust (P : session → Prop) : Prop := {
  robust_trace : ∀ s v, P s → P (set_trace v s);
  robust_streams : ∀ s v, P s → dom v ⊆ dom (streams s) → P (set_streams v s);
  robust_remoteError : ∀ s v, P s → P (set_remoteError v s);
  robust_remoteDebug : ∀ s v, P s → P (set_remoteDebug v s);
  robust_dieErr : ∀ s v, P s → P (set_dieErr v s);
  robust_dead : ∀ s, P s → P (set_dead true s);
  robust_transport : ∀ s, P s → P (set_transportClosed true s);
  robust_dieOnce : ∀ s, P s → P (set_dieOnce 1 s);
  robust_local_goneAway : ∀ s, P s → P (wr ref_local_goneAway 1 s);
  robust_remote_goneAway : ∀ s, P s → P (wr ref_remote_goneAway 1 s) }.

(** The bookkeeping of stream ids: the part of the invariant that is about
    ids, with the bound on the table, and lower bounds [a] and [b] on the
    two [lastId]s. *)
Record ids_ok (a b : Z) (s : session) : Prop := {
  ids_role : isLocal s = isClient ∨ isLocal s = isServer;
  ids_parity : isLocal s (lastId (local s)) = true;
  ids_local : 0 ≤ lastId (local s) ≤ 2 ^ 31 + 1;
  ids_mutex : newStreamMutex s = false → lastId (local s) < 2 ^ 31;
  ids_remote : 0 ≤ lastId (remote s) < 2 ^ 32;
  ids_table : table_bounded s;
  ids_above_local : a ≤ lastId (local s);
  ids_above_remote : b ≤ lastId (remote s) }.

(** 1 when [dead] is closed. *)
Definition shut_count (s : session) : nat := if dead s then 1%nat else 0%nat.

(** A call has only added to the trace, has submitted no SYN and has left
    [local.lastId] alone, and has closed [dead] if [dead] has become
    closed. *)
Definition extends (s s' : session) : Prop :=
  ∃ t, trace s' = trace s ++ t ∧ syn_ids t = [] ∧
       (closes t + shut_count s = shut_count s')%nat ∧
       lastId (local s') = lastId (local s).



(** The ids that a call may add to the stream table: the id that
    [OpenStream] allocates, and the id of a SYN frame. *)
Definition may_add (c : op) (s : session) : gset StreamId :=
  match c with
  | CallOpenStream _ => {[uint32 (lastId (local s) + 2)]}
  | ReaderIter _ _ (inr (FData f)) => if Syn f then {[Data_StreamId f]} else ∅
  | _ => ∅
  end.

(** The ids that a call may take out of it: the argument of [removeStream]. *)
Definition may_remove (c : op) : gset StreamId :=
  match c with
  | CallRemoveStream id => {[id]}
  | _ => ∅
  end.
(** ** Proof automation *)

(** Unfold the primitive computations: the monad, the atomic operations,
    the mutex, the stream table and the write path. *)
Ltac unfold_M :=
  unfold writeFrameSync, writeFrameAsync, writeFrame, enqueue, accept_send, call,
    streams_Set, streams_Get, streams_Delete, streams_Each, Lock, Unlock,
    atomic_LoadUint32, atomic_StoreUint32, atomic_AddUint32, atomic_CompareAndSwapUint32,
    log, modify, get, block, mbind, mret, M_bind, M_ret in *.

(** Split a run of a method into its paths. *)
Ltac paths := unfold_M; repeat case_match; simplify_eq.

(** ** Arithmetic of stream ids *)

Arguments uint32 : simpl never.
#[local] Arguments Z.testbit : simpl never.

Lemma uint32_small (x : Z) : 0 ≤ x < 2 ^ 32 → uint32 x = x.
Proof. intros. unfold uint32. apply Z.mod_small. lia. Qed.

Lemma uint32_range (x : Z) : 0 ≤ uint32 x < 2 ^ 32.
Proof. unfold uint32. apply Z.mod_pos_bound. lia. Qed.

Lemma land_bit31 (x : Z) : (Z.land x (Z.shiftl 1 31) >? 0) = Z.testbit x 31.
Proof.
  change (Z.shiftl 1 31) with (2 ^ 31).
  destruct (Z.testbit x 31) eqn:E.
  - assert (Z.land x (2 ^ 31) = 2 ^ 31) as ->; [|done].
    apply Z.bits_inj'. intros n Hn. rewrite Z.land_spec, Z.pow2_bits_eqb by lia.
    destruct (Z.eqb_spec 31 n); subst; [by rewrite E|by rewrite andb_false_r].
  - assert (Z.land x (2 ^ 31) = 0) as ->; [|done].
    apply Z.bits_inj'. intros n Hn. rewrite Z.land_spec, Z.pow2_bits_eqb, Z.bits_0 by lia.
    destruct (Z.eqb_spec 31 n); subst; [by rewrite E|by rewrite andb_false_r].
Qed.

Lemma testbit31 (x : Z) : 0 ≤ x < 2 ^ 32 → Z.testbit x 31 = (2 ^ 31 <=? x).
Proof.
  intros Hx. rewrite Z.testbit_odd, Z.shiftr_div_pow2 by lia.
  destruct (Z.leb_spec (2 ^ 31) x).
  - by assert (x `div` 2 ^ 31 = 1) as -> by (symmetry; apply Z.div_unique with (x - 2 ^ 31); lia).
  - by rewrite Z.div_small by lia.
Qed.

Lemma isClient_odd (x : Z) : isClient x = Z.odd (uint32 x).
Proof.
  unfold isClient. change 1 with (Z.ones 1) at 1. rewrite Z.land_ones by lia.
  change (2 ^ 1) with 2. rewrite Zmod_odd. by destruct (Z.odd (uint32 x)).
Qed.

Lemma isClient_add2 (x : Z) : 0 ≤ x → x + 2 < 2 ^ 32 → isClient (x + 2) = isClient x.
Proof.
  intros. rewrite !isClient_odd, !uint32_small by lia.
  rewrite Z.odd_add. by destruct (Z.odd x).
Qed.

(** ** The invariant holds in every reachable state *)

Lemma invariant_newSession b : invariant (newSession b).
Proof.
  destruct b; split; simpl; auto; try (intros; discriminate); try (cbv; intuition congruence).
Qed.

Lemma isLocal_add2 s x :
  isLocal s = isClient ∨ isLocal s = isServer →
  0 ≤ x → x + 2 < 2 ^ 32 → isLocal s (uint32 (x + 2)) = isLocal s x.
Proof.
  intros Hrole ??. rewrite uint32_small by lia.
  destruct Hrole as [-> | ->]; unfold isServer; by rewrite isClient_add2.
Qed.

Ltac inv_finish :=
  split; simpl in *; auto; try discriminate; try lia; try (intros; lia).

Lemma invariant_OpenStream w s r s' :
  OpenStream w s = Some (r, s') → invariant s → invariant s'.
Proof.
  intros Hr []. unfold OpenStream in Hr. paths; inv_finish.
  all: try (rewrite isLocal_add2; [done..|lia|lia]).
  all: rewrite ?land_bit31, ?testbit31 in * by apply uint32_range.
  all: rewrite uint32_small in * by lia.
  all: lia.
Qed.

Lemma invariant_GoAway w errCode debug dl s r s' :
  GoAway w errCode debug dl s = Some (r, s') → invariant s → invariant s'.
Proof. intros Hr []. unfold GoAway in Hr. paths; inv_finish. Qed.

Lemma invariant_die w err s r s' :
  die w err s = Some (r, s') → invariant s → invariant s'.
Proof.
  intros Hr []. unfold die, GoAway in Hr. paths; inv_finish.
Qed.

Lemma invariant_handleSyn o f s r s' :
  handleSyn o f s = Some (r, s') → invariant s → invariant s'.
Proof. intros Hr []. unfold handleSyn in Hr. paths; inv_finish. Qed.

Lemma invariant_getStream w id s r s' :
  getStream w id s = Some (r, s') → invariant s → invariant s'.
Proof.
  intros Hr Hs. unfold getStream in Hr. paths; eauto using invariant_die.
Qed.

Lemma invariant_handleFrame w o rf s r s' :
  handleFrame w o rf s = Some (r, s') → invariant s → invariant s'.
Proof.
  intros Hr Hs. unfold handleFrame in Hr. paths; eauto using invariant_handleSyn.
  all: try match goal with
       | H : getStream _ _ _ = Some _ |- _ => apply invariant_getStream in H; [|done]
       end.
  all: try done.
  all: repeat match goal with H : invariant _ |- _ => destruct H end; inv_finish.
Qed.

Lemma invariant_reader_iter w o rx s r s' :
  reader_iter w o rx s = Some (r, s') → invariant s → invariant s'.
Proof.
  intros Hr Hs. unfold reader_iter in Hr. paths;
    eauto using invariant_die, invariant_handleFrame.
Qed.

Lemma invariant_run c s : invariant s → invariant (run c s).
Proof.
  intros Hs. destruct c; simpl; unfold after; case_match; try done;
    destruct p as [r s'];
    eauto using invariant_OpenStream, invariant_die, invariant_GoAway, invariant_reader_iter.
  - unfold AcceptStream, Wait in *. destruct Hs. paths; inv_finish.
  - unfold Wait in *. by paths.
  - unfold removeStream in *. destruct Hs. paths; inv_finish.
Qed.

Theorem reachable_invariant s : reachable s → invariant s.
Proof. induction 1; auto using invariant_newSession, invariant_run. Qed.

(** ** Session construction *)

(** C8 (as amended): at construction the client half's [lastId] is 1 and
    the server half's [lastId] is 0, on a client and on a server alike; the
    first stream a client opens has id 3 and the first a server opens has
    id 2. *)
Theorem newSession_lastId (isClientRole : bool) :
  lastId (clientHalf isClientRole (newSession isClientRole)) = 1 ∧
  lastId (serverHalf isClientRole (newSession isClientRole)) = 0 ∧
  ∀ w str s', OpenStream w (newSession isClientRole) = Some (inr str, s') →
    Id str = if isClientRole then 3 else 2.
Proof.
  split_and!; [by destruct isClientRole..|].
  intros w str s' Hr. unfold OpenStream in Hr.
  destruct isClientRole; paths; by rewrite Id_newStream.
Qed.

(** ** Opening streams *)

(** X5: the paths of [OpenStream] past the exhaustion check release the mutex. *)
Lemma OpenStream_unlocks w s r s' :
  OpenStream w s = Some (r, s') → goneAway (remote s) ≠ 1 →
  Z.testbit (uint32 (lastId (local s) + 2)) 31 = false →
  newStreamMutex s' = false.
Proof.
  intros Hr Hg Hbit. unfold OpenStream in Hr. paths; simpl in *; try done.
  all: try lia.
  all: rewrite land_bit31 in *; simpl in *; congruence.
Qed.

(** C7 (the code departs from it): when the allocated id has bit 31 set,
    [OpenStream] returns [streamsExhausted] with [newStreamMutex] still
    locked: the mutex was locked and never unlocked, and every later call
    of [OpenStream] blocks on it. *)
Theorem OpenStream_exhausted_holds_mutex w s :
  goneAway (remote s) ≠ 1 → newStreamMutex s = false →
  Z.testbit (uint32 (lastId (local s) + 2)) 31 = true →
  ∃ s', OpenStream w s = Some (inl streamsExhausted, s') ∧
        newStreamMutex s' = true ∧
        trace s' = trace s ++ [EvLock] ∧
        ∀ w', OpenStream w' s' = None.
Proof.
  intros Hg Hm Hbit. unfold OpenStream. unfold_M.
  destruct (Z.eqb_spec (rd ref_remote_goneAway s) 1) as [|_]; [done|].
  rewrite Hm. simpl. rewrite land_bit31, Hbit. simpl.
  eexists; split_and!; try done.
  intros w'. simpl. by destruct (Z.eqb_spec (goneAway (remote s)) 1).
Qed.

(** C4: [OpenStream] fails with [remoteGoneAway], allocating no id, when
    the remote half has gone away.  Otherwise, once it holds the mutex, it
    allocates the id [l = previous local.lastId + 2], which has local
    parity; it fails with [streamsExhausted] exactly when bit 31 of [l] is
    set; and on success the returned stream has id [l], is in the stream
    table under [l], and was put there before the SYN was submitted.  A
    call whose write request is taken by the writer does return. *)
Theorem OpenStream_spec w s :
  reachable s →
  (goneAway (remote s) = 1 → OpenStream w s = Some (inl remoteGoneAway, s)) ∧
  (goneAway (remote s) ≠ 1 → newStreamMutex s = false →
   let l := lastId (local s) + 2 in
   isLocal s l = true ∧
   (∀ r, is_Some (OpenStream (Written r) s)) ∧
   ∀ res s', OpenStream w s = Some (res, s') →
     lastId (local s') = l ∧
     (res = inl streamsExhausted ↔ Z.testbit l 31 = true) ∧
     ∀ str, res = inr str →
       Id str = l ∧ streams s' !! l = Some str ∧
       trace s' = trace s ++ [EvLock; EvSet l;
                              EvEnqueue (FData (packedData l [] false true)); EvUnlock]).
Proof.
  intros Hreach. apply reachable_invariant in Hreach as [].
  split.
  { intros Hg. unfold OpenStream. unfold_M. simpl. by rewrite Hg. }
  intros Hg Hm l. specialize (inv_mutex0 Hm).
  assert (Hl : uint32 (lastId (local s) + 2) = l) by (apply uint32_small; lia).
  split_and!.
  - subst l. rewrite <- (isLocal_add2 s) in inv_parity0 by (done || lia).
    by rewrite uint32_small in inv_parity0 by lia.
  - intros r. unfold OpenStream. unfold_M. simpl. 
    destruct (Z.eqb_spec (goneAway (remote s)) 1); [done|]. rewrite Hm. simpl.
    repeat case_match; eauto.
  - intros res s' Hr. unfold OpenStream in Hr. paths; simpl in *; rewrite ?Hl in *.
    all: try lia.
    all: rewrite ?land_bit31 in *.
    all: split_and!; try done; try (split; congruence).
    all: repeat match goal with
         | H : _ <$> ?r = Some _ |- _ => destruct r; simplify_eq/=
         end.
    all: try (split; [split; congruence|]).
    all: try (intros str [= <-]; rewrite ?Id_newStream, ?lookup_insert_eq; split_and!; try done).
    all: try done.
    all: try by (unfold newErr, fromFrameError; split; congruence).
    by rewrite <- !app_assoc.
Qed.

(** ** Shutdown *)

(** Once [dieOnce] is set, [die] returns [sessionClosed] and does nothing. *)
Lemma die_again w err s : dieOnce s ≠ 0 → die w err s = Some (Some sessionClosed, s).
Proof.
  intros Hd. unfold die. unfold_M. simpl.
  by destruct (Z.eqb_spec (dieOnce s) 0).
Qed.

(** The call that finds [dieOnce] at 0 runs the whole sequence. *)
Lemma die_first w err s r s' :
  dieOnce s = 0 → die w err s = Some (r, s') →
  r = None ∧ dieOnce s' = 1 ∧ goneAway (local s') = 1 ∧ dieErr s' = err ∧ dead s' = true ∧
  transportClosed s' = true ∧
  (∀ id, streams s' !! id = (λ str, closeWith str sessionClosedError) <$> streams s !! id) ∧
  (trace s' = trace s ++ shutdown_steps err ∨
   trace s' = trace s ++ [EvEnqueue (dieGoAway err s)] ++ shutdown_steps err).
Proof.
  intros Hd Hr. unfold die, GoAway in Hr. unfold_M. simpl in Hr. rewrite Hd in Hr.
  simpl in Hr.
  assert (Hmap : ∀ (m : gmap Z stream) id,
    map_imap (λ _ str, Some (closeWith str sessionClosedError)) m !! id
    = (λ str, closeWith str sessionClosedError) <$> m !! id).
  { intros m id. rewrite map_lookup_imap. by destruct (m !! id). }
  unfold shutdown_steps, dieGoAway.
  repeat case_match; simplify_eq/=; split_and!; try done.
  all: rewrite <- ?app_assoc; simpl; eauto.
Qed.

(** A first call returns when its GOAWAY is written or times out. *)
Lemma die_returns w err s :
  dieOnce s = 0 → (∀ queued, w ≠ SessionDead queued) → is_Some (die w err s).
Proof.
  intros Hd Hw. unfold die, GoAway. unfold_M. simpl. rewrite Hd. simpl.
  repeat case_match; simplify_eq/=; eauto; by destruct (Hw queued).
Qed.

Lemma shut_die w err s r s' : die w err s = Some (r, s') → shut s s'.
Proof. intros Hr Hd. rewrite die_again in Hr by done. by simplify_eq. Qed.

Lemma shut_trans s1 s2 s3 : shut s1 s2 → shut s2 s3 → shut s1 s3.
Proof.
  intros H12 H23 Hd. destruct (H12 Hd) as (E1 & E2 & E3).
  destruct H23 as (F1 & F2 & F3); [congruence|]. split_and!; congruence.
Qed.

Lemma shut_handleFrame w o rf s r s' : handleFrame w o rf s = Some (r, s') → shut s s'.
Proof.
  intros Hr. unfold handleFrame, handleSyn, getStream in Hr. paths.
  all: try match goal with
       | H : die _ _ _ = Some _ |- _ => apply shut_die in H
       end.
  all: done.
Qed.

Lemma shut_run c s : shut s (run c s).
Proof.
  destruct c; simpl; unfold after; case_match; try done; destruct p as [r s'].
  - unfold OpenStream in *. by paths.
  - unfold AcceptStream, Wait in *. by paths.
  - by eapply shut_die.
  - unfold GoAway in *. by paths.
  - unfold Wait in *. by paths.
  - unfold removeStream in *. by paths.
  - by eapply shut_die.
  - unfold reader_iter in *. paths;
      eauto using shut_die, shut_handleFrame, shut_trans.
Qed.

Lemma shut_runs cs s : shut s (runs cs s).
Proof.
  revert s. induction cs as [|c cs IH]; intros s; [done|].
  simpl. eapply shut_trans; [apply shut_run|apply IH].
Qed.

(** Calls of [Close] one after the other: the call that finds the session
    alive performs the shutdown sequence and returns nil; a call on a session
    that is already shut down returns [sessionClosed] and leaves the session
    as it is; and after a call has returned, every later call, whatever the
    session did in between, returns [sessionClosed] without touching the
    session. *)
Lemma Close_sequential w s r s' :
  Close w s = Some (r, s') →
  (dieOnce s = 0 →
     r = None ∧ dieOnce s' = 1 ∧ dieErr s' = None ∧ dead s' = true ∧
     transportClosed s' = true ∧
     (∀ id, streams s' !! id = (λ str, closeWith str sessionClosedError) <$> streams s !! id) ∧
     (trace s' = trace s ++ shutdown_steps None ∨
      trace s' = trace s ++ [EvEnqueue (dieGoAway None s)] ++ shutdown_steps None)) ∧
  (dieOnce s ≠ 0 → r = Some sessionClosed ∧ s' = s) ∧
  ∀ cs w', Close w' (runs cs s') = Some (Some sessionClosed, runs cs s').
Proof.
  unfold Close. intros Hr. split_and!.
  - intros Hd. destruct (die_first _ _ _ _ _ Hd Hr) as (?&?&?&?&?&?&?&?). by split_and!.
  - intros Hd. rewrite die_again in Hr by done. by simplify_eq.
  - intros cs w'. apply die_again.
    assert (Hs' : dieOnce s' ≠ 0).
    { destruct (decide (dieOnce s = 0)) as [Hd|Hd].
      - destruct (die_first _ _ _ _ _ Hd Hr) as (?&?&?). lia.
      - rewrite die_again in Hr by done. by simplify_eq. }
    destruct (shut_runs cs s' Hs') as [-> _]. done.
Qed.

(** ** Incoming SYN frames *)

Lemma app_eq_self_cons {A} (l t : list A) (x : A) : l ≠ l ++ x :: t.
Proof.
  intros Heq. apply (f_equal length) in Heq. rewrite length_app in Heq. simpl in Heq. lia.
Qed.

(** [handleSyn] always returns. *)
Lemma handleSyn_returns o f s : is_Some (handleSyn o f s).
Proof. unfold handleSyn. unfold_M. simpl. repeat case_match; simplify_eq; eauto. Qed.

(** C1 (as amended): an accepted SYN has remote parity and an id that is
    not below the previous [remote.lastId]; it sets [remote.lastId] to its id
    and puts the new stream into the table.  While the local half has not
    gone away, a SYN whose id is below [remote.lastId] or has local parity
    is not accepted: [handleSyn] returns a [ProtocolError], the session is
    left as it was, and the reader shuts the session down with that error.
    When the local half has gone away no SYN is accepted and none yields a
    [ProtocolError]. *)
Theorem handleSyn_accepts o f s :
  let id := Data_StreamId f in
  (∀ r s', handleSyn o f s = Some (r, s') →
     (accepted f s s' ↔
        goneAway (local s) ≠ 1 ∧ lastId (remote s) ≤ id ∧ isLocal s id = false) ∧
     (accepted f s s' → lastId (remote s') = uint32 id ∧ is_Some (streams s' !! id)) ∧
     (goneAway (local s) ≠ 1 → id < lastId (remote s) ∨ isLocal s id = true →
        s' = s ∧ ∃ msg, r = Some (newErr ProtocolError msg)) ∧
     (goneAway (local s) = 1 →
        streams s' = streams s ∧ remote s' = remote s ∧
        ∀ msg, r ≠ Some (newErr ProtocolError msg))) ∧
  (∀ w continue s', Syn f = true → dieOnce s = 0 → goneAway (local s) ≠ 1 →
     id < lastId (remote s) ∨ isLocal s id = true →
     reader_iter w o (inr (FData f)) s = Some (continue, s') →
     continue = false ∧ dead s' = true ∧ ∃ msg, dieErr s' = Some (newErr ProtocolError msg)).
Proof.
  intros id. subst id. split.
  - intros r s' Hr. unfold accepted, handleSyn in *.
    paths; simpl in *; rewrite ?Z.eqb_eq, ?Z.eqb_neq, ?Z.ltb_lt, ?Z.ltb_ge in *.
    all: split_and!.
    all: try (intros; exfalso; lia).
    all: try (intros [t Ht]; exfalso; rewrite <- ?app_assoc in Ht;
              first [by apply app_eq_self_cons in Ht | by apply app_inv_head in Ht]).
    all: try (split; [intros _; split_and!; (done || lia)
                     |intros _; eexists; rewrite <- !app_assoc; simpl; reflexivity]).
    all: try (split; [intros [t Ht]; exfalso; rewrite <- ?app_assoc in Ht;
                        first [by apply app_eq_self_cons in Ht | by apply app_inv_head in Ht]
                     |intros (?&?&?); exfalso; (lia || congruence)]).
    all: try (intros _; split; [done|by rewrite lookup_insert_eq]).
    all: try (intros _; split; [done|by rewrite lookup_insert_ne, lookup_insert_eq]).
    all: try (intros ? [|]; exfalso; (lia || congruence)).
    all: try (intros ? _; split; [done|eauto]).
    all: try (intros _; split_and!; [done..|intros msg; unfold newErr; congruence]).
    all: split; [done|intros _; by exists []].
  - intros w continue s' Hsyn Hd Hg Hbad Hr. unfold reader_iter, handleFrame in Hr.
    rewrite Hsyn in Hr. unfold_M.
    destruct (handleSyn o f s) as [[r s1]|] eqn:Hsyn1; [|done].
    assert (s1 = s ∧ ∃ msg, r = Some (newErr ProtocolError msg)) as [-> [msg ->]].
    { unfold handleSyn in Hsyn1.
      paths; simpl in *; rewrite ?Z.eqb_eq, ?Z.eqb_neq, ?Z.ltb_lt, ?Z.ltb_ge in *;
        try done; eauto.
      all: exfalso; destruct Hbad; (lia || congruence). }
    destruct (die w (Some (newErr ProtocolError msg)) s) as [[r2 s2]|] eqn:Hdie; [|done].
    simplify_eq. destruct (die_first _ _ _ _ _ Hd Hdie) as (?&?&?&?&?&?). eauto.
Qed.

(** ** DATA frames and the codec *)

(** C2 (the code departs from it): a SYN that arrives after the local half
    has gone away is answered with a RST and dropped, and [handleFrame]
    returns nil, but nothing has taken the body of the frame off the
    transport: the only effect is the goroutine that writes the RST. *)
Theorem handleFrame_refused_syn_not_consumed w o f s :
  Syn f = true → goneAway (local s) = 1 →
  Rst_Pack (Data_StreamId f) StreamRefused = None →
  ∃ s', handleFrame w o (FData f) s = Some (None, s') ∧
        s' = set_trace (trace s ++ [EvGo (rstFrame (Data_StreamId f) StreamRefused)]) s ∧
        ¬ consumed f (new_events s s').
Proof.
  intros Hsyn Hg Hpack. eexists. split_and!; [|done|].
  - unfold handleFrame, handleSyn. rewrite Hsyn. unfold_M. simpl.
    by rewrite Hg, Hpack.
  - unfold new_events, consumed. simpl. rewrite drop_app_length.
    intros [Hin|Hin]; apply list_elem_of_singleton in Hin; discriminate.
Qed.

(** [die] and [getStream] only add to the trace. *)
Lemma die_trace w err s r s' :
  die w err s = Some (r, s') → ∃ t, trace s' = trace s ++ t.
Proof.
  intros Hr. destruct (decide (dieOnce s = 0)) as [Hd|Hd].
  - destruct (die_first _ _ _ _ _ Hd Hr) as (_&_&_&_&_&_&_&[->| ->]); eauto.
  - rewrite die_again in Hr by done. simplify_eq. exists []. by rewrite app_nil_r.
Qed.

Lemma getStream_trace w id s r s' :
  getStream w id s = Some (r, s') → ∃ t, trace s' = trace s ++ t.
Proof.
  intros Hr. unfold getStream in Hr. paths; eauto using die_trace.
  all: exists []; by rewrite app_nil_r.
Qed.

Lemma io_Copy_Discard_full f n :
  0 ≤ Length f < 2 ^ 32 → io_Copy_Discard f = (n, None) → (uint32 n <? Length f) = false →
  n = Length f.
Proof.
  unfold io_Copy_Discard. intros Hlen [= <- _] Hn%Z.ltb_ge.
  rewrite uint32_small in Hn by lia. lia.
Qed.

(** X23: on every other path that returns nil the body has been consumed:
    a DATA frame without SYN, or with SYN while the local half has not gone
    away, for which [handleFrame] returns nil has been handed to a stream
    or read off the transport in full. *)
Lemma handleFrame_data_consumed w o f s s' :
  0 ≤ Length f < 2 ^ 32 → Syn f = false ∨ goneAway (local s) ≠ 1 →
  handleFrame w o (FData f) s = Some (None, s') →
  consumed f (new_events s s').
Proof.
  intros Hlen Hpath Hr. unfold handleFrame, handleSyn in Hr. unfold consumed, new_events.
  paths; simpl in *; rewrite ?Z.eqb_eq, ?Z.eqb_neq in *.
  all: try (destruct Hpath; congruence).
  all: try match goal with
       | H : getStream _ _ _ = Some _ |- _ => apply getStream_trace in H as [t ->]
       end.
  all: rewrite <- ?app_assoc, drop_app_length.
  all: rewrite ?elem_of_app, ?elem_of_cons.
  all: try (right; by auto 6).
  all: left; erewrite <- (io_Copy_Discard_full f) by done; by auto 6.
Qed.

(** ** GOAWAY *)

(** C5: on a GOAWAY frame the session sets [remote.goneAway], records the
    error code and the debug bytes of the frame in [remoteError] and
    [remoteDebug], and closes with [remoteGoneAway] exactly the streams of
    the table that are locally initiated and whose id is above the
    [LastStreamId] of the frame; the other streams are left as they are, and
    no stream enters or leaves the table. *)
Theorem handleFrame_GoAway w o f s :
  ∃ s', handleFrame w o (FGoAway f) s = Some (None, s') ∧
    goneAway (remote s') = 1 ∧
    remoteDebug s' = Debug f ∧
    remoteError s' = Some (muxadoError (GoAway_ErrorCode f)
                             (errors_New (string_of_list_byte (Debug f)))) ∧
    (∀ id, streams s !! id = None → streams s' !! id = None) ∧
    ∀ id str, streams s !! id = Some str →
      (isLocal s (Id str) = true → LastStreamId f < Id str →
         streams s' !! id = Some (closeWith str remoteGoneAway)) ∧
      (isLocal s (Id str) = false ∨ Id str ≤ LastStreamId f →
         streams s' !! id = Some str).
Proof.
  eexists. split; [unfold handleFrame; unfold_M; reflexivity|]. simpl. split_and!; try done.
  - intros id Hid. by rewrite map_lookup_imap, Hid.
  - intros id str Hid. rewrite map_lookup_imap, Hid. simpl. split.
    + intros -> Hlt. simpl. by destruct (Z.gtb_spec (Id str) (LastStreamId f)); [|lia].
    + intros [-> | Hle]; [done|].
      destruct (Z.gtb_spec (Id str) (LastStreamId f)); [lia|].
      by rewrite andb_false_r.
Qed.

(** ** Frames for streams that are not in the table *)

(** After [getStream] has shut the session down, the rest of [handleFrame]
    leaves [dead] and [dieErr] alone. *)
Lemma getStream_idle w id s r s' :
  uint32 id > lastId (if isLocal s id then local s else remote s) → dieOnce s = 0 →
  getStream w id s = Some (r, s') →
  dieOnce s' = 1 ∧ dead s' = true ∧ dieErr s' = Some (unassigned id).
Proof.
  intros Hid Hd Hr. unfold getStream in Hr. unfold_M. simpl in Hr.
  destruct (isLocal s id); simpl in Hr.
  all: destruct (Z.gtb_spec (uint32 id) (lastId (local s)));
       destruct (Z.gtb_spec (uint32 id) (lastId (remote s))); try lia.
  all: repeat case_match; simplify_eq.
  all: match goal with H : die _ _ _ = Some _ |- _ =>
         destruct (die_first _ _ _ _ _ Hd H) as (?&?&?&?&?&?) end.
  all: done.
Qed.

Lemma getStream_known w id s :
  uint32 id ≤ lastId (if isLocal s id then local s else remote s) →
  getStream w id s = Some (streams s !! id, s).
Proof.
  intros Hid. unfold getStream. unfold_M. simpl.
  destruct (isLocal s id); simpl.
  - by destruct (Z.gtb_spec (uint32 id) (lastId (local s))); [lia|].
  - by destruct (Z.gtb_spec (uint32 id) (lastId (remote s))); [lia|].
Qed.

(** C6 (as amended): a frame for a stream whose id is above [lastId] for
    its parity shuts the session down with a [ProtocolError].  Otherwise, for
    a DATA frame whose stream is not in the table, the session discards the
    body; when the transport delivers the whole body and the RST packs, it
    starts the asynchronous write of a RST with code [StreamClosed] and
    [handleFrame] returns nil, changing nothing else; when the transport
    delivers less than the whole body, [handleFrame] returns the error. *)
Theorem handleFrame_absent_stream w o s :
  (∀ rf id r s', target rf = Some id →
     uint32 id > lastId (if isLocal s id then local s else remote s) → dieOnce s = 0 →
     handleFrame w o rf s = Some (r, s') →
     dead s' = true ∧ dieErr s' = Some (unassigned id)) ∧
  (∀ f, Syn f = false → 0 ≤ Length f < 2 ^ 32 →
     let id := Data_StreamId f in
     let n := Z.of_nat (length (delivered (Data_Reader f))) in
     uint32 id ≤ lastId (if isLocal s id then local s else remote s) →
     streams s !! id = None →
     (Length f ≤ n → Rst_Pack id StreamClosed = None →
        handleFrame w o (FData f) s =
          Some (None, set_trace (trace s ++ [EvDiscard (Length f);
                                             EvGo (rstFrame id StreamClosed)]) s)) ∧
     (n < Length f →
        ∃ e, handleFrame w o (FData f) s =
               Some (Some (foreign e), set_trace (trace s ++ [EvDiscard n]) s))).
Proof.
  split.
  - intros rf id r s' Htarget Hid Hd Hr.
    destruct rf; simpl in Htarget; try done.
    1: destruct (Syn f) eqn:Hsyn; [done|].
    all: simplify_eq; unfold handleFrame in Hr; rewrite ?Hsyn in Hr.
    all: unfold_M.
    all: match type of Hr with context [getStream ?w ?id ?s] =>
           destruct (getStream w id s) as [[str s1]|] eqn:Hget; [|done] end.
    all: destruct (getStream_idle _ _ _ _ _ Hid Hd Hget) as (Hd1 & Hdead & Herr).
    all: repeat case_match; simplify_eq; simpl; done.
  - intros f Hsyn Hlen id n Hid Habsent. subst id n. split.
    + intros Hfull Hpack. unfold handleFrame. rewrite Hsyn. unfold_M.
      rewrite getStream_known by done. rewrite Habsent. unfold io_Copy_Discard.
      rewrite Z.min_r by lia. rewrite Z.ltb_irrefl.
      destruct (fault (Data_Reader f)) as [[]|]; simpl.
      all: rewrite uint32_small, Z.ltb_irrefl, Hpack by lia.
      all: unfold set_trace, rstFrame; simpl; by rewrite <- app_assoc.
    + intros Hshort. unfold handleFrame. rewrite Hsyn. unfold_M.
      rewrite getStream_known by done. rewrite Habsent. unfold io_Copy_Discard.
      rewrite Z.min_l by lia.
      destruct (Z.ltb_spec (Z.of_nat (length (delivered (Data_Reader f)))) (Length f));
        [|lia].
      destruct (fault (Data_Reader f)) as [[]|]; simpl; eauto.
      all: rewrite uint32_small by lia.
      all: destruct (Z.ltb_spec (Z.of_nat (length (delivered (Data_Reader f)))) (Length f));
        [|lia].
      all: eauto.
Qed.

(** ** A full accept queue *)

(** C10: when a SYN passes the checks of [handleSyn] but the offer to the
    accept queue times out, the session starts the asynchronous write of a
    RST with code [AcceptQueueFull] (provided the RST packs), and yet the
    new stream stays in the stream table and the SYN frame is handed to its
    [handleStreamData], whose result [handleSyn] returns: the stream table
    and the result are those of the run in which the offer is taken. *)
Theorem handleSyn_accept_timeout o f s :
  let id := Data_StreamId f in
  let str := newStream id (windowSize s) (Fin f) in
  goneAway (local s) ≠ 1 → lastId (remote s) ≤ id → isLocal s id = false →
  o = AcceptTimedOut ∨ defaultAcceptQueueDepth ≤ Z.of_nat (length (accept s)) →
  Rst_Pack id AcceptQueueFull = None →
  ∃ s', handleSyn o f s = Some ((handleStreamData str f).2, s') ∧
    trace s' = trace s ++ [EvSet id; EvGo (rstFrame id AcceptQueueFull); EvStreamData id f] ∧
    streams s' = <[id := (handleStreamData str f).1]> (streams s) ∧
    accept s' = accept s ∧
    lastId (remote s') = uint32 id ∧
    ∀ queue, Z.of_nat (length queue) < defaultAcceptQueueDepth →
      ∃ s'', handleSyn AcceptSent f (set_accept queue s)
               = Some ((handleStreamData str f).2, s'') ∧
             streams s'' = streams s' ∧
             accept s'' = queue ++ [id] ∧
             lastId (remote s'') = lastId (remote s').
Proof.
  intros id str Hg Hlast Hparity Htimeout Hpack. subst id str.
  assert (Hprefix : ∀ q o',
    handleSyn o' f (set_accept q s) =
      (sent ← accept_send o' (Data_StreamId f);
       let deliver :=
         call (Data_StreamId f) (EvStreamData (Data_StreamId f) f)
           (handleStreamData (newStream (Data_StreamId f) (windowSize s) (Fin f)) f) in
       if (sent : bool) then deliver else
       match Rst_Pack (Data_StreamId f) AcceptQueueFull with
       | Some err =>
           mret (Some (newErr InternalError
              (fmt_Errorf "failed to pack accept overflow RST: %v" [ArgErr (foreign err)])))
       | None => writeFrameAsync (rstFrame (Data_StreamId f) AcceptQueueFull);; deliver
       end)
      (set_trace (trace s ++ [EvSet (Data_StreamId f)])
         (set_streams (<[Data_StreamId f :=
                           newStream (Data_StreamId f) (windowSize s) (Fin f)]> (streams s))
            (wr ref_remote_lastId (uint32 (Data_StreamId f)) (set_accept q s))))).
  { intros q o'. unfold handleSyn. unfold_M. simpl.
    destruct (Z.eqb_spec (goneAway (local s)) 1); [done|]. simpl.
    destruct (Z.ltb_spec (Data_StreamId f) (lastId (remote s))); [lia|]. simpl.
    by rewrite Hparity. }
  eexists. split_and!.
  - replace s with (set_accept (accept s) s) at 1 by by destruct s.
    rewrite Hprefix. unfold_M. simpl. rewrite Hpack.
    destruct Htimeout as [-> | Hfull]; [reflexivity|].
    destruct o; [|reflexivity].
    by destruct (Z.ltb_spec (Z.of_nat (length (accept s))) defaultAcceptQueueDepth); [lia|].
  - simpl. by rewrite <- !app_assoc.
  - simpl. by rewrite insert_insert_eq.
  - done.
  - done.
  - intros queue Hroom. eexists. split_and!.
    + rewrite Hprefix. unfold_M. simpl.
      by destruct (Z.ltb_spec (Z.of_nat (length queue)) defaultAcceptQueueDepth); [|lia].
    + simpl. by rewrite !insert_insert_eq.
    + done.
    + done.
Qed.

(** ** The interleaved steps of [die] and [Wait] *)

(** The steps of one call, run without interruption, are the method. *)
Lemma die_alone w err s :
  alone 6 (Dying AtCas w err) s = (r ← die w err; mret (Died r)) s.
Proof.
  unfold die, alone, thread_step, die_step. unfold_M. simpl.
  destruct (dieOnce s =? 0); simpl; [|done].
  destruct err as [e|]; simpl.
  all: destruct (GoAway w _ _ _ _) as [[r s1]|]; simpl; done.
Qed.

Lemma Wait_alone s : alone 4 WaitDead s = (v ← Wait; mret (Waited v)) s.
Proof.
  unfold Wait, alone, thread_step. unfold_M. simpl. by destruct (dead s).
Qed.

Lemma thread_ok_same s s' t : same_shutdown s s' → thread_ok s t → thread_ok s' t.
Proof.
  intros (Hd & Hdead & Herr). destruct t as [[] ? ?|[]| | | | |[[]]]; simpl;
    rewrite ?Hd, ?Hdead, ?Herr; done.
Qed.

Lemma thread_ok_won s t : won t = true → thread_ok s t → dieOnce s = 1.
Proof. destruct t as [[] ? ?|[]| | | | |[[]]]; simpl; intros; intuition congruence. Qed.

(** Before [dead] is closed, only the winner relies on anything. *)
Lemma thread_ok_not_dead s s' t :
  dead s = false → won t = false → thread_ok s t → thread_ok s' t.
Proof. destruct t as [[] ? ?|[]| | | | |[[]]]; simpl; intros; intuition congruence. Qed.

Lemma run_same_shutdown c s : invariant s → dieOnce s ≠ 0 → same_shutdown s (run c s).
Proof. intros _ Hd. destruct (shut_run c s Hd) as (?&?&?). by split_and!. Qed.

Lemma thread_step_ok s t t' s' :
  invariant s → thread_ok s t → thread_step t s = Some (t', s') →
  invariant s' ∧ thread_ok s' t' ∧
  (same_shutdown s s' ∧ won t' = won t ∨
   dead s = false ∧ (won t = true ∨ dieOnce s = 0) ∧ won t' = true).
Proof.
  intros Hinv Hok Hstep. destruct t as [pc w err|r| | |e|e re|v]; simpl in Hstep.
  - destruct pc; simpl in Hstep, Hok.
    + unfold_M. simpl in Hstep. destruct (Z.eqb_spec (dieOnce s) 0) as [Hd|Hd];
        simpl in Hstep; simplify_eq.
      * destruct Hinv. destruct (inv_alive0 Hd) as [Hdead Herr].
        split_and!; [inv_finish|simpl; done|right; by eauto].
      * split_and!; [done|done|left; done].
    + destruct Hok as [Hd Hdead]. 
      assert (∀ c d, match GoAway w c d (time_Now_Add (250 * Millisecond)) s with
                     | Some (_, s1) => invariant s1 ∧ same_shutdown s s1
                     | None => True end) as HG.
      { intros c d. destruct (GoAway _ _ _ _ _) as [[r1 s1]|] eqn:HG; [|done].
        split; [by eapply invariant_GoAway|]. unfold GoAway in HG. by paths. }
      unfold_M. destruct err as [e|]; simpl in Hstep.
      all: match type of Hstep with context [GoAway ?w ?c ?d ?t ?s] =>
             specialize (HG c d); destruct (GoAway w c d t s) as [[r1 s1]|]; [|done] end.
      all: simplify_eq; destruct HG as [? (Hd1 & Hdead1 & Herr1)].
      all: split_and!; [done|simpl; split; congruence|left; done].
    + destruct Hok as [Hd Hdead]. unfold_M. simplify_eq. destruct Hinv.
      split_and!; [inv_finish|simpl; done|right; by eauto].
    + destruct Hok as (Hd & Hdead & Herr). unfold_M. simplify_eq. destruct Hinv.
      split_and!; [inv_finish|simpl; done|right; by eauto].
    + destruct Hok as (Hd & Hdead & Herr). unfold_M. simplify_eq. destruct Hinv.
      split_and!; [inv_finish|simpl; done|left; done].
    + destruct Hok as (Hd & Hdead & Herr). unfold_M. simplify_eq. destruct Hinv.
      split_and!; [inv_finish|simpl; done|left; done].
  - unfold_M. simplify_eq. split_and!; [done|done|left; done].
  - unfold_M. simpl in Hstep. destruct (dead s) eqn:Hdead; simplify_eq.
    split_and!; [done|done|left; done].
  - unfold_M. simplify_eq. split_and!; [done|simpl; done|left; done].
  - unfold_M. simplify_eq. split_and!; [done|simpl; done|left; done].
  - unfold_M. simplify_eq. split_and!; [done|simpl; done|left; done].
  - unfold_M. simplify_eq. split_and!; [done|done|left; done].
Qed.

Lemma system_invariant_initial b : system_invariant (initial b).
Proof. split; simpl; [apply invariant_newSession|done..]. Qed.

Lemma system_invariant_step σ σ' : system_invariant σ → step σ σ' → system_invariant σ'.
Proof.
  intros [Hinv Hok Hwin] Hstep.
  destruct Hstep as [σ i t t' s' Hi Hstep|σ c|σ t Hstart]; simpl.
  - destruct (thread_step_ok _ _ _ _ Hinv (Hok _ _ Hi) Hstep) as (Hinv' & Hok' & Hcase).
    assert (Hlen : (i < length (threads σ))%nat) by by eapply lookup_lt_Some.
    split; simpl; [done| |].
    + intros j tj Hj. destruct (decide (i = j)) as [<-|Hne].
      { rewrite list_lookup_insert_eq in Hj by done. by simplify_eq. }
      rewrite list_lookup_insert_ne in Hj by done.
      destruct Hcase as [[Hsame _]|(Hdead & Hwon & _)].
      { eapply thread_ok_same; eauto. }
      eapply thread_ok_not_dead; eauto.
      destruct (won tj) eqn:Hwj; [exfalso|done].
      destruct Hwon as [Hwt|Hd].
      * by pose proof (Hwin _ _ _ _ Hi Hj Hwt Hwj).
      * pose proof (thread_ok_won _ _ Hwj (Hok _ _ Hj)). lia.
    + assert (Hothers : ∀ j tj, threads σ !! j = Some tj → won t' = true →
                                 won tj = true → i = j).
      { intros j tj Hj Hwt' Hwj. destruct Hcase as [[_ Hw]|(Hdead & [Hwt|Hd] & _)].
        - rewrite Hw in Hwt'. eauto.
        - eauto.
        - pose proof (thread_ok_won _ _ Hwj (Hok _ _ Hj)). lia. }
      intros j k tj tk Hj Hk Hwj Hwk.
      destruct (decide (i = j)) as [<-|Hnj], (decide (i = k)) as [<-|Hnk]; [done|..].
      * rewrite list_lookup_insert_eq in Hj by done.
        rewrite list_lookup_insert_ne in Hk by done. simplify_eq. eauto.
      * rewrite list_lookup_insert_ne in Hj by done.
        rewrite list_lookup_insert_eq in Hk by done. simplify_eq. symmetry. eauto.
      * rewrite list_lookup_insert_ne in Hj, Hk by done. eauto.
  - split; simpl; [by apply invariant_run| |done].
    intros i t Hi. specialize (Hok _ _ Hi).
    destruct (decide (dieOnce (shared σ) = 0)) as [Hd|Hd].
    + destruct Hinv. destruct (inv_alive0 Hd) as [Hdead _].
      eapply thread_ok_not_dead; [done| |done].
      destruct (won t) eqn:Hw; [|done]. pose proof (thread_ok_won _ _ Hw Hok). lia.
    + eapply thread_ok_same; [|done]. by apply run_same_shutdown.
  - assert (Hnew : thread_ok (shared σ) t ∧ won t = false).
    { by destruct Hstart as [->|(w & err & ->)]. }
    destruct Hnew as [Hokt Hwt].
    split; simpl; [done| |].
    + intros i ti Hi. apply lookup_app_Some in Hi as [Hi|[_ Hi]]; [eauto|].
      apply list_lookup_singleton_Some in Hi as [_ <-]. done.
    + intros i j ti tj Hi Hj Hwi Hwj.
      apply lookup_app_Some in Hi as [Hi|[_ Hi]];
        [|apply list_lookup_singleton_Some in Hi as [_ <-]; congruence].
      apply lookup_app_Some in Hj as [Hj|[_ Hj]];
        [|apply list_lookup_singleton_Some in Hj as [_ <-]; congruence].
      eauto.
Qed.

Lemma system_invariant_steps σ σ' : system_invariant σ → rtc step σ σ' → system_invariant σ'.
Proof. induction 2; eauto using system_invariant_step. Qed.

(** Once [dead] is closed, no step changes [dead] or [dieErr]. *)
Lemma step_final σ σ' :
  system_invariant σ → step σ σ' → dead (shared σ) = true →
  dead (shared σ') = true ∧ dieErr (shared σ') = dieErr (shared σ).
Proof.
  intros [Hinv Hok Hwin] Hstep Hdead.
  destruct Hstep as [σ i t t' s' Hi Hstep|σ c|σ t Hstart]; simpl; [| |done].
  - destruct (thread_step_ok _ _ _ _ Hinv (Hok _ _ Hi) Hstep)
      as (_ & _ & [[(_ & Hd & He) _]|(Hnot & _)]); [|congruence].
    split; congruence.
  - destruct Hinv. destruct (run_same_shutdown c (shared σ)) as (_ & Hd & He).
    + done.
    + rewrite inv_dead0; done.
    + split; congruence.
Qed.

Lemma steps_final σ σ' :
  system_invariant σ → rtc step σ σ' → dead (shared σ) = true →
  dead (shared σ') = true ∧ dieErr (shared σ') = dieErr (shared σ).
Proof.
  intros Hinv Hsteps. induction Hsteps as [|σ1 σ2 σ3 Hstep Hsteps IH]; [done|].
  intros Hdead. destruct (step_final _ _ Hinv Hstep Hdead) as [Hdead2 Herr2].
  destruct IH as [Hdead3 Herr3]; [by eapply system_invariant_step|done|].
  split; congruence.
Qed.

Lemma reachable_system_invariant b σ : rtc step (initial b) σ → system_invariant σ.
Proof. intros. eapply system_invariant_steps; [apply system_invariant_initial|done]. Qed.

(** Among the calls of [die] in progress or returned, at most one has
    passed the compare-and-swap: no two calls return nil. *)
Theorem die_returns_nil_once b σ i j :
  rtc step (initial b) σ →
  threads σ !! i = Some (Died None) → threads σ !! j = Some (Died None) → i = j.
Proof.
  intros Hsteps Hi Hj. destruct (reachable_system_invariant _ _ Hsteps) as [_ _ Hwin].
  by eapply Hwin.
Qed.

(** C3: shutdown runs at most once.  In every state of every run, with the
    calls of [die] interleaved: the call of [Close] (that is, of [die]) that
    finds the session alive performs the shutdown sequence and returns nil,
    and it does return; a call on a session whose [dieOnce] is set returns
    [sessionClosed] and leaves the session as it is, and so does every call
    after a call of [Close] has returned, whatever the session did in
    between; a call that reaches the compare-and-swap after another call has
    passed it returns [sessionClosed] on the spot; and no two calls return
    nil. *)
Theorem shutdown_runs_once b σ :
  rtc step (initial b) σ →
  (∀ w r s', Close w (shared σ) = Some (r, s') →
     (dieOnce (shared σ) = 0 →
        r = None ∧ dieOnce s' = 1 ∧ dieErr s' = None ∧ dead s' = true ∧
        transportClosed s' = true ∧
        (∀ id, streams s' !! id
               = (λ str, closeWith str sessionClosedError) <$> streams (shared σ) !! id) ∧
        (trace s' = trace (shared σ) ++ shutdown_steps None ∨
         trace s' = trace (shared σ) ++ [EvEnqueue (dieGoAway None (shared σ))]
                      ++ shutdown_steps None)) ∧
     (dieOnce (shared σ) ≠ 0 → r = Some sessionClosed ∧ s' = shared σ) ∧
     ∀ cs w', Close w' (runs cs s') = Some (Some sessionClosed, runs cs s')) ∧
  (∀ w, dieOnce (shared σ) = 0 → (∀ queued, w ≠ SessionDead queued) →
     is_Some (Close w (shared σ))) ∧
  (∀ w err, dieOnce (shared σ) ≠ 0 →
     thread_step (Dying AtCas w err) (shared σ)
       = Some (Died (Some sessionClosed), shared σ)) ∧
  (∀ i j, threads σ !! i = Some (Died None) → threads σ !! j = Some (Died None) → i = j).
Proof.
  intros Hsteps. split_and!.
  - intros w r s'. apply Close_sequential.
  - intros w. apply die_returns.
  - intros w err Hd. simpl. unfold_M. simpl.
    by destruct (Z.eqb_spec (dieOnce (shared σ)) 0).
  - intros i j. by eapply die_returns_nil_once.
Qed.

(** C9: within [die], [dieErr] is stored before [dead] is closed: the store
    is the step before the close in the trace of the call, and a call that
    is about to close [dead] has its error in [dieErr] already.  [Wait]
    returns the triple of [dieErr], [remoteError] and [remoteDebug], and only
    when [dead] is closed: a call of [Wait] that is past its receive finds
    [dead] closed, and the [dieErr] it has returned is the final one, that
    of the session in every later state. *)
Theorem dieErr_stored_before_dead_closed b σ :
  rtc step (initial b) σ →
  (∀ w err r s', dieOnce (shared σ) = 0 → die w err (shared σ) = Some (r, s') →
     dieErr s' = err ∧
     ∃ t, trace s' = trace (shared σ) ++ t ++ shutdown_steps err ∧ EvCloseDead ∉ t) ∧
  (∀ i w err, threads σ !! i = Some (Dying AtClose w err) →
     dead (shared σ) = false ∧ dieErr (shared σ) = err) ∧
  Wait (shared σ) =
    (if dead (shared σ)
     then Some ((dieErr (shared σ), remoteError (shared σ), remoteDebug (shared σ)),
                shared σ)
     else None) ∧
  (∀ i t, threads σ !! i = Some t → woken t = true → dead (shared σ) = true) ∧
  (∀ i e re rd σ', threads σ !! i = Some (Waited (e, re, rd)) → rtc step σ σ' →
     dead (shared σ') = true ∧ dieErr (shared σ') = e).
Proof.
  intros Hsteps. pose proof (reachable_system_invariant _ _ Hsteps) as Hsys.
  destruct Hsys as [Hinv Hok Hwin] eqn:E. clear E. split_and!.
  - intros w err r s' Hd Hr.
    destruct (die_first _ _ _ _ _ Hd Hr) as (_&_&_&Herr&_&_&_&[Ht|Ht]).
    + split; [done|]. exists []. split; [done|]. apply not_elem_of_nil.
    + split; [done|]. eexists. split; [done|]. unfold dieGoAway.
      intros Hin%list_elem_of_singleton. discriminate.
  - intros i w err Hi. by destruct (Hok _ _ Hi) as (_ & ? & ?).
  - done.
  - intros i t Hi Hw. specialize (Hok _ _ Hi).
    destruct t as [[] ? ?|[]| | | | |[[]]]; simpl in *; try done; by destruct Hok.
  - intros i e re rd σ' Hi Hsteps'. destruct (Hok _ _ Hi) as [Hdead ->].
    by apply steps_final.
Qed.

(** * Further properties of the session *)

(** ** The reader *)

(** X13: when [ReadFrame] fails on a live session the reader shuts it down and
    leaves its loop: gracefully, with no error, on [io.EOF], and with the
    error otherwise.  The local half has then gone away. *)
Theorem reader_iter_read_error w o err s continue s' :
  dieOnce s = 0 →
  reader_iter w o (inl err) s = Some (continue, s') →
  continue = false ∧ dead s' = true ∧ transportClosed s' = true ∧
  goneAway (local s') = 1 ∧
  dieErr s' = match err with io_EOF => None | _ => Some (foreign err) end.
Proof.
  intros Hd Hr. unfold reader_iter in Hr. unfold_M.
  destruct err; simpl in Hr.
  all: match type of Hr with context [die ?w ?e ?s] =>
         destruct (die w e s) as [[r1 s1]|] eqn:Hdie; [|done] end.
  all: simplify_eq; destruct (die_first _ _ _ _ _ Hd Hdie) as (_&_&?&?&?&?&_); done.
Qed.

Lemma handleFrame_present w o rf id str str' r s :
  target rf = Some id →
  uint32 id ≤ lastId (if isLocal s id then local s else remote s) →
  streams s !! id = Some str →
  deliver str rf = Some (str', r) →
  handleFrame w o rf s
    = Some (r, set_streams (<[id := str']> (streams s)) (set_trace (trace s ++ delivery rf) s)).
Proof.
  intros Htarget Hid Hstr Hdeliver.
  destruct rf as [f|f|f|f|]; simpl in Htarget, Hdeliver; try done.
  1: destruct (Syn f) eqn:Hsyn; [done|].
  all: injection Hdeliver as Hdeliver; injection Htarget as <-.
  all: unfold handleFrame; rewrite ?Hsyn; unfold_M.
  all: rewrite getStream_known by done; rewrite Hstr; simpl.
  all: by rewrite Hdeliver.
Qed.

(** X16: a frame for a stream of the table goes to that stream, which is left as
    its handler leaves it, and [handleFrame] returns what the handler
    returns; an error makes the reader shut the session down with it. *)
Theorem handleFrame_delivers w o rf id str str' r s :
  target rf = Some id →
  uint32 id ≤ lastId (if isLocal s id then local s else remote s) →
  streams s !! id = Some str →
  deliver str rf = Some (str', r) →
  handleFrame w o rf s
    = Some (r, set_streams (<[id := str']> (streams s)) (set_trace (trace s ++ delivery rf) s)) ∧
  ∀ e continue s', r = Some e → dieOnce s = 0 →
    reader_iter w o (inr rf) s = Some (continue, s') →
    continue = false ∧ dead s' = true ∧ dieErr s' = Some e.
Proof.
  intros Htarget Hid Hstr Hdeliver.
  pose proof (handleFrame_present w o _ _ _ _ _ _ Htarget Hid Hstr Hdeliver) as Hframe.
  split; [done|].
  intros e continue s' -> Hd Hr. unfold reader_iter in Hr. unfold_M.
  rewrite Hframe in Hr.
  match type of Hr with context [die ?w ?e ?s] =>
    destruct (die w e s) as [[r1 s1]|] eqn:Hdie; [|done] end.
  simplify_eq. edestruct die_first as (_&_&_&?&?&_); [|exact Hdie|]; done.
Qed.

(** X17: a RST or a WNDINC for a stream that has left the table, and a frame of
    an unknown kind, are ignored. *)
Theorem handleFrame_ignores w o rf s :
  match rf with
  | FRst f =>
      uint32 (Rst_StreamId f)
        ≤ lastId (if isLocal s (Rst_StreamId f) then local s else remote s) ∧
      streams s !! Rst_StreamId f = None
  | FWndInc f =>
      uint32 (WndInc_StreamId f)
        ≤ lastId (if isLocal s (WndInc_StreamId f) then local s else remote s) ∧
      streams s !! WndInc_StreamId f = None
  | FUnknown => True
  | FData _ | FGoAway _ => False
  end →
  handleFrame w o rf s = Some (None, s).
Proof.
  destruct rf as [f|f|f|f|]; try done.
  all: intros [Hid Hnone]; unfold handleFrame; unfold_M.
  all: rewrite getStream_known by done; by rewrite Hnone.
Qed.

(** X14: the reader returns only from an iteration that leaves the loop; it
    closes the accept channel on its way out, reads nothing more, and the
    session is then shut down or being shut down. *)
Theorem reader_stops inputs more s u s' :
  invariant s →
  reader inputs s = Some (u, s') →
  acceptClosed s' = true ∧ dieOnce s' = 1 ∧ reader (inputs ++ more) s = Some (u, s').
Proof.
  revert s. induction inputs as [|[[w o] rx] inputs IH]; intros s Hinv Hr; [done|].
  simpl in Hr |- *. unfold_M.
  destruct (reader_iter w o rx s) as [[continue s1]|] eqn:Hiter; [|done].
  pose proof (invariant_reader_iter _ _ _ _ _ _ Hiter Hinv) as Hinv1.
  destruct continue; [by apply IH|].
  simplify_eq. simpl. split_and!; [done| |done].
  unfold reader_iter in Hiter. unfold_M.
  destruct rx as [err|rf].
  - destruct (is_EOF (fromFrameError err)).
    all: match type of Hiter with context [die ?w ?e ?s] =>
           destruct (die w e s) as [[r1 s2]|] eqn:Hdie; [|done] end.
    all: simplify_eq; destruct Hinv as [_ _ _ _ _ [Hd|Hd] _ _].
    all: try (by destruct (die_first _ _ _ _ _ Hd Hdie) as (_&?&_)).
    all: rewrite die_again in Hdie by lia; by simplify_eq.
  - destruct (handleFrame w o rf s) as [[[e|] s2]|] eqn:Hframe; [| |done].
    + pose proof (invariant_handleFrame _ _ _ _ _ _ Hframe Hinv) as Hinv2.
      match type of Hiter with context [die ?w ?e ?s] =>
        destruct (die w e s) as [[r1 s3]|] eqn:Hdie; [|done] end.
      simplify_eq. destruct Hinv2 as [_ _ _ _ _ [Hd|Hd] _ _].
      * by destruct (die_first _ _ _ _ _ Hd Hdie) as (_&?&_).
      * rewrite die_again in Hdie by lia. by simplify_eq.
    + simplify_eq. destruct Hinv1. apply inv_dead0. by destruct (dead s1).
Qed.

(** ** Properties kept by every call *)

Lemma dom_imap_Some (f : Z → stream → stream) (m : gmap Z stream) :
  dom (map_imap (λ id str, Some (f id str)) m) ⊆ dom m.
Proof.
  intros id. rewrite !elem_of_dom, map_lookup_imap.
  destruct (m !! id); simpl; [eauto|]. by intros [? ?].
Qed.

Lemma dom_insert_present (m : gmap Z stream) id str :
  is_Some (m !! id) → dom (<[id := str]> m) ⊆ dom m.
Proof.
  intros Hid k. rewrite dom_insert, elem_of_union, elem_of_singleton.
  intros [->|]; [by apply elem_of_dom|done].
Qed.

Lemma getStream_result w id s r s' : getStream w id s = Some (r, s') → r = streams s' !! id.
Proof. intros Hr. unfold getStream in Hr. by paths. Qed.

Ltac robustly HP :=
  repeat first
    [ assumption
    | match goal with
      | |- ?P (set_trace _ _) => apply (robust_trace _ HP)
      | |- ?P (set_streams _ _) => apply (robust_streams _ HP)
      | |- ?P (set_remoteError _ _) => apply (robust_remoteError _ HP)
      | |- ?P (set_remoteDebug _ _) => apply (robust_remoteDebug _ HP)
      | |- ?P (set_dieErr _ _) => apply (robust_dieErr _ HP)
      | |- ?P (set_dead true _) => apply (robust_dead _ HP)
      | |- ?P (set_transportClosed true _) => apply (robust_transport _ HP)
      | |- ?P (set_dieOnce 1 _) => apply (robust_dieOnce _ HP)
      | |- ?P (wr ref_local_goneAway 1 _) => apply (robust_local_goneAway _ HP)
      | |- ?P (wr ref_remote_goneAway 1 _) => apply (robust_remote_goneAway _ HP)
      end ].

Lemma robust_GoAway P w errCode debug dl s r s' :
  robust P → GoAway w errCode debug dl s = Some (r, s') → P s → P s'.
Proof. intros HP Hr Hs. unfold GoAway in Hr. paths; robustly HP. Qed.

Lemma robust_die P w err s r s' :
  robust P → die w err s = Some (r, s') → P s → P s'.
Proof.
  intros HP Hr Hs. unfold die in Hr. unfold_M. simpl in Hr.
  destruct (dieOnce s =? 0); simpl in Hr; [|by simplify_eq].
  assert (HG : ∀ c d r1 s1,
    GoAway w c d (time_Now_Add (250 * Millisecond)) (set_dieOnce 1 s) = Some (r1, s1) →
    P s1).
  { intros c d r1 s1 HG. eapply (robust_GoAway P); [done..|]. by apply (robust_dieOnce _ HP). }
  destruct err as [e|]; simpl in Hr.
  all: match type of Hr with context [GoAway ?w ?c ?d ?t ?s] =>
         specialize (HG c d); destruct (GoAway w c d t s) as [[r1 s1]|]; [|done] end.
  all: specialize (HG _ _ eq_refl); simplify_eq; simpl.
  all: robustly HP; simpl; apply dom_imap_Some.
Qed.

Lemma robust_getStream P w id s r s' :
  robust P → getStream w id s = Some (r, s') → P s → P s'.
Proof.
  intros HP Hr Hs. unfold getStream in Hr. paths; try done; by eapply (robust_die P).
Qed.

Lemma robust_handleFrame P w o rf s r s' :
  robust P →
  (∀ f s r s', rf = FData f → handleSyn o f s = Some (r, s') → P s → P s') →
  handleFrame w o rf s = Some (r, s') → P s → P s'.
Proof.
  intros HP Hsyn Hr Hs. unfold handleFrame in Hr. paths; eauto.
  all: try match goal with
       | H : getStream _ _ _ = Some _ |- _ =>
           pose proof (getStream_result _ _ _ _ _ H) as Hres;
           apply (robust_getStream P) in H; [|done..]
       end.
  all: try done.
  all: robustly HP; simpl.
  all: try (apply dom_insert_present; rewrite <- Hres; eauto).
  apply dom_imap_Some.
Qed.

Lemma robust_reader_iter P w o rx s r s' :
  robust P →
  (∀ f s r s', rx = inr (FData f) → handleSyn o f s = Some (r, s') → P s → P s') →
  reader_iter w o rx s = Some (r, s') → P s → P s'.
Proof.
  intros HP Hsyn Hr Hs. unfold reader_iter in Hr. paths.
  all: try match goal with
       | H : handleFrame _ _ _ _ = Some _ |- _ =>
           apply (robust_handleFrame P) in H; [|done|intros; simplify_eq; eauto|done]
       end.
  all: try done.
  all: by eapply (robust_die P).
Qed.

(** A robust property that [OpenStream], [AcceptStream], [removeStream] and
    the acceptance of a SYN keep is kept by every call on the session. *)
Lemma robust_run P Q c s :
  robust P →
  (∀ w s r s', OpenStream w s = Some (r, s') → P s → P s') →
  (∀ s r s', AcceptStream s = Some (r, s') → P s → P s') →
  (∀ id s, P s → P (set_streams (delete id (streams s)) s)) →
  (∀ o f s r s', Q (FData f) → handleSyn o f s = Some (r, s') → P s → P s') →
  op_frames Q c → P s → P (run c s).
Proof.
  intros HP Hopen Haccept Hremove Hsyn Hc Hs.
  destruct c; simpl; unfold after; case_match; try done; destruct p as [r s'].
  - eauto.
  - eauto.
  - by eapply (robust_die P).
  - by eapply (robust_GoAway P).
  - unfold Wait in *. by paths.
  - unfold removeStream in *. paths. apply (robust_trace _ HP). by apply Hremove.
  - by eapply (robust_die P).
  - eapply (robust_reader_iter P); [done| |done..].
    intros f s0 r0 s0' ->. by apply Hsyn.
Qed.

Lemma robust_runs P Q cs s :
  robust P →
  (∀ w s r s', OpenStream w s = Some (r, s') → P s → P s') →
  (∀ s r s', AcceptStream s = Some (r, s') → P s → P s') →
  (∀ id s, P s → P (set_streams (delete id (streams s)) s)) →
  (∀ o f s r s', Q (FData f) → handleSyn o f s = Some (r, s') → P s → P s') →
  Forall (op_frames Q) cs → P s → P (runs cs s).
Proof.
  intros HP Hopen Haccept Hremove Hsyn Hcs. revert s.
  induction Hcs as [|c cs Hc Hcs IH]; intros s Hs; [done|].
  simpl. apply IH. by eapply (robust_run P Q).
Qed.

Lemma op_frames_True c : op_frames (λ _, True) c.
Proof. by destruct c as [| | | | | | |? ? [|]]. Qed.

Lemma Forall_op_frames_True cs : Forall (op_frames (λ _, True)) cs.
Proof. apply Forall_forall. intros. apply op_frames_True. Qed.

(** ** Going away *)

Lemma robust_local_gone : robust (λ s, goneAway (local s) = 1).
Proof. by split. Qed.

Lemma robust_remote_gone : robust (λ s, goneAway (remote s) = 1).
Proof. by split. Qed.

Lemma local_gone_runs cs s : goneAway (local s) = 1 → goneAway (local (runs cs s)) = 1.
Proof.
  apply (robust_runs (λ s, goneAway (local s) = 1) (λ _, True));
    [apply robust_local_gone|..|apply Forall_op_frames_True].
  - intros w s0 r s' Hr Hs. unfold OpenStream in Hr. by paths.
  - intros s0 r s' Hr Hs. unfold AcceptStream, Wait in Hr. by paths.
  - done.
  - intros o f s0 r s' _ Hr Hs. unfold handleSyn in Hr. by paths.
Qed.

Lemma remote_gone_runs cs s : goneAway (remote s) = 1 → goneAway (remote (runs cs s)) = 1.
Proof.
  apply (robust_runs (λ s, goneAway (remote s) = 1) (λ _, True));
    [apply robust_remote_gone|..|apply Forall_op_frames_True].
  - intros w s0 r s' Hr Hs. unfold OpenStream in Hr. by paths.
  - intros s0 r s' Hr Hs. unfold AcceptStream, Wait in Hr. by paths.
  - done.
  - intros o f s0 r s' _ Hr Hs. unfold handleSyn in Hr. by paths.
Qed.

(** X8: once [GoAway] has returned, with or without an error, the local half
    has gone away for good: whatever the session does afterwards, every SYN
    is answered with a RST with code [StreamRefused] and dropped, without
    creating a stream. *)
Theorem GoAway_refuses_for_ever w errCode debug dl s r s1 cs o f :
  GoAway w errCode debug dl s = Some (r, s1) →
  Rst_Pack (Data_StreamId f) StreamRefused = None →
  goneAway (local (runs cs s1)) = 1 ∧
  handleSyn o f (runs cs s1)
    = Some (None, set_trace (trace (runs cs s1)
                               ++ [EvGo (rstFrame (Data_StreamId f) StreamRefused)])
                    (runs cs s1)).
Proof.
  intros Hr Hpack.
  assert (Hgone : goneAway (local (runs cs s1)) = 1).
  { apply local_gone_runs. unfold GoAway in Hr. by paths. }
  split; [done|]. unfold handleSyn. unfold_M. simpl. by rewrite Hgone, Hpack.
Qed.

(** X9: the shutdown of the session makes the local half go away as well. *)
Theorem die_refuses_for_ever w err s r s1 cs o f :
  dieOnce s = 0 → die w err s = Some (r, s1) →
  Rst_Pack (Data_StreamId f) StreamRefused = None →
  handleSyn o f (runs cs s1)
    = Some (None, set_trace (trace (runs cs s1)
                               ++ [EvGo (rstFrame (Data_StreamId f) StreamRefused)])
                    (runs cs s1)).
Proof.
  intros Hd Hr Hpack.
  assert (Hgone : goneAway (local (runs cs s1)) = 1).
  { apply local_gone_runs. by destruct (die_first _ _ _ _ _ Hd Hr) as (_&_&?&_). }
  unfold handleSyn. unfold_M. simpl. by rewrite Hgone, Hpack.
Qed.

(** X6: once a GOAWAY of the peer has been handled, [OpenStream] fails with
    [remoteGoneAway] for good, and allocates no id. *)
Theorem remote_GoAway_stops_OpenStream w o f s r s1 cs w' :
  handleFrame w o (FGoAway f) s = Some (r, s1) →
  OpenStream w' (runs cs s1) = Some (inl remoteGoneAway, runs cs s1).
Proof.
  intros Hr.
  assert (Hgone : goneAway (remote (runs cs s1)) = 1).
  { apply remote_gone_runs. unfold handleFrame in Hr. by paths. }
  unfold OpenStream. unfold_M. simpl. by rewrite Hgone.
Qed.

(** ** The accept queue *)

Lemma robust_accept_bounded :
  robust (λ s, Z.of_nat (length (accept s)) ≤ defaultAcceptQueueDepth).
Proof. by split. Qed.

(** X22: the accept queue never holds more than 256 streams. *)
Theorem accept_queue_bounded s :
  reachable s → Z.of_nat (length (accept s)) ≤ defaultAcceptQueueDepth.
Proof.
  induction 1 as [b|c s _ IH]; [by destruct b|].
  revert IH.
  apply (robust_run (λ s, Z.of_nat (length (accept s)) ≤ defaultAcceptQueueDepth)
           (λ _, True)); [apply robust_accept_bounded|..|apply op_frames_True].
  - intros w s0 r s' Hr Hs. unfold OpenStream in Hr. by paths.
  - intros s0 r s' Hr Hs. unfold AcceptStream, Wait in Hr. paths; simpl in *.
    all: try match goal with H : accept _ = _ |- _ => rewrite H in * end.
    all: simpl in *; lia.
  - done.
  - intros o f s0 r s' _ Hr Hs. unfold handleSyn in Hr.
    paths; simpl in *; try done.
    all: rewrite length_app; simpl.
    all: match goal with H : (_ <? _) = true |- _ => apply Z.ltb_lt in H end; lia.
Qed.

(** ** Stream ids *)

Lemma robust_ids_ok a b : robust (ids_ok a b).
Proof.
  split.
  2: { intros s v [] Hdom. split; try done.
       intros id str Hid. simpl in *.
       assert (is_Some (streams s !! id)) as [str0 Hstr0].
       { apply elem_of_dom, Hdom, elem_of_dom. eauto. }
       by apply (ids_table0 _ _ Hstr0). }
  all: try (intros s v []; by split).
  all: intros s []; split; try done.
  all: intros id str Hid; destruct (ids_table0 id str Hid) as [? Hle]; split; [done|].
  all: simpl in *; by destruct (isLocal s id).
Qed.

Lemma ids_ok_newSession b : ids_ok 0 0 (newSession b).
Proof.
  destruct b; split; simpl; auto; try (intros; discriminate);
    try (cbv; intuition congruence).
  all: intros id str Hid; by rewrite lookup_empty in Hid.
Qed.

Lemma table_bounded_grow s s' :
  table_bounded s → isLocal s' = isLocal s →
  lastId (local s) ≤ lastId (local s') → lastId (remote s) ≤ lastId (remote s') →
  (∀ id str, streams s' !! id = Some str →
     is_Some (streams s !! id) ∨
     uint32_id id ∧ id ≤ lastId (if isLocal s' id then local s' else remote s')) →
  table_bounded s'.
Proof.
  intros Hs Hrole Hlocal Hremote Hnew id str Hid.
  destruct (Hnew id str Hid) as [[str0 Hold]|]; [|done].
  destruct (Hs id str0 Hold) as [? Hle]. split; [done|].
  rewrite Hrole. destruct (isLocal s id); lia.
Qed.

Lemma ids_ok_OpenStream a b w s r s' :
  OpenStream w s = Some (r, s') → ids_ok a b s → ids_ok a b s'.
Proof.
  intros Hr []. unfold OpenStream in Hr. paths.
  all: split; simpl in *; auto; try discriminate.
  all: rewrite ?land_bit31, ?testbit31 in * by apply uint32_range.
  all: try (rewrite isLocal_add2; [done..|lia|lia]).
  all: rewrite ?uint32_small in * by lia.
  all: try lia.
  all: eapply table_bounded_grow; [done|done|simpl; lia|simpl; lia|].
  all: simpl; intros id str; rewrite ?lookup_insert; try case_decide; subst; eauto.
  all: intros _; right; unfold uint32_id; split; [lia|].
  all: rewrite <- (isLocal_add2 s), uint32_small in ids_parity0 by (done || lia).
  all: rewrite ids_parity0; simpl; lia.
Qed.

Lemma ids_ok_handleSyn a b o f s r s' :
  uint32_id (Data_StreamId f) →
  handleSyn o f s = Some (r, s') → ids_ok a b s → ids_ok a b s'.
Proof.
  intros Hid Hr []. unfold uint32_id in Hid. unfold handleSyn in Hr. paths.
  all: split; simpl in *; auto.
  all: rewrite ?Z.ltb_ge in *.
  all: rewrite ?uint32_small in * by lia.
  all: try lia.
  all: eapply table_bounded_grow; [done|done|simpl; lia|simpl; rewrite ?uint32_small; lia|].
  all: simpl; intros id str; rewrite ?lookup_insert; repeat case_decide; subst; eauto.
  all: intros _; right; unfold uint32_id; split; [lia|].
  all: match goal with H : isLocal _ _ = false |- _ => rewrite H end.
  all: simpl; rewrite ?uint32_small; lia.
Qed.

Lemma ids_ok_runs a b cs s :
  Forall op_typed cs → ids_ok a b s → ids_ok a b (runs cs s).
Proof.
  intros Hcs.
  apply (robust_runs (ids_ok a b) frame_typed); [apply robust_ids_ok|..|done].
  - intros w s0 r s'. apply ids_ok_OpenStream.
  - intros s0 r s' Hr []. unfold AcceptStream, Wait in Hr. paths; by split.
  - intros id s0 Hs. apply (robust_streams _ (robust_ids_ok a b)); [done|].
    simpl. rewrite dom_delete. by apply subseteq_difference_l.
  - intros o f s0 r s' Hf. by apply ids_ok_handleSyn.
Qed.

Lemma ids_ok_weaken a b s :
  ids_ok a b s → ids_ok (lastId (local s)) (lastId (remote s)) s.
Proof. intros []. by split. Qed.

(** X19: in every run on frames whose ids are [uint32]s, every stream of the
    table sits under an id that is a [uint32] not above [lastId] for its
    parity, and neither [lastId] ever decreases. *)
Theorem lastId_bounds_table b cs1 cs2 :
  Forall op_typed (cs1 ++ cs2) →
  table_bounded (runs (cs1 ++ cs2) (newSession b)) ∧
  lastId (local (runs cs1 (newSession b)))
    ≤ lastId (local (runs (cs1 ++ cs2) (newSession b))) ∧
  lastId (remote (runs cs1 (newSession b)))
    ≤ lastId (remote (runs (cs1 ++ cs2) (newSession b))).
Proof.
  intros [H1 H2]%Forall_app. unfold runs. rewrite foldl_app. fold (runs cs1 (newSession b)).
  pose proof (ids_ok_runs _ _ _ _ H1 (ids_ok_newSession b)) as Hs1.
  apply ids_ok_weaken in Hs1.
  destruct (ids_ok_runs _ _ _ _ H2 Hs1). done.
Qed.

(** X18: in such a run a frame for a stream of the table never meets the idle-id
    check of [getStream]: it reaches the stream, and [handleFrame] returns
    what the stream's handler returns. *)
Theorem live_stream_frame_delivered b cs w o rf id str str' r :
  Forall op_typed cs →
  target rf = Some id →
  streams (runs cs (newSession b)) !! id = Some str →
  deliver str rf = Some (str', r) →
  handleFrame w o rf (runs cs (newSession b))
    = Some (r, set_streams (<[id := str']> (streams (runs cs (newSession b))))
                 (set_trace (trace (runs cs (newSession b)) ++ delivery rf)
                    (runs cs (newSession b)))).
Proof.
  intros Hcs Htarget Hstr Hdeliver.
  destruct (ids_ok_runs _ _ _ _ Hcs (ids_ok_newSession b)) as [_ _ _ _ _ Htable _ _].
  destruct (Htable _ _ Hstr) as [Hid Hle].
  eapply handleFrame_present; try done.
  by rewrite uint32_small.
Qed.

(** ** What the trace of a session shows *)

Lemma syn_ids_app t1 t2 : syn_ids (t1 ++ t2) = syn_ids t1 ++ syn_ids t2.
Proof. apply omap_app. Qed.

Lemma closes_app t1 t2 : closes (t1 ++ t2) = (closes t1 + closes t2)%nat.
Proof. unfold closes. by rewrite List.filter_app, length_app. Qed.

Lemma extends_refl s : extends s s.
Proof. exists []. by rewrite app_nil_r. Qed.

Lemma extends_trans s1 s2 s3 : extends s1 s2 → extends s2 s3 → extends s1 s3.
Proof.
  intros (t1 & Ht1 & Hs1 & Hc1 & Hl1) (t2 & Ht2 & Hs2 & Hc2 & Hl2).
  exists (t1 ++ t2). split_and!.
  - by rewrite Ht2, Ht1, app_assoc.
  - by rewrite syn_ids_app, Hs1, Hs2.
  - rewrite closes_app. lia.
  - congruence.
Qed.

(** The explicit case: the new state is the old one with fields set. *)
Ltac extends_now :=
  first
    [ exists []; split_and!; [simpl; by rewrite app_nil_r|reflexivity..]
    | eexists; split_and!; [simpl; rewrite <- ?app_assoc; reflexivity|reflexivity..] ].

Lemma extends_GoAway w errCode debug dl s r s' :
  GoAway w errCode debug dl s = Some (r, s') → extends s s'.
Proof. intros Hr. unfold GoAway in Hr. paths; extends_now. Qed.

Lemma extends_die w err s r s' :
  invariant s → die w err s = Some (r, s') → extends s s'.
Proof.
  intros Hinv Hr. destruct (decide (dieOnce s = 0)) as [Hd|Hd].
  - assert (Hlast : lastId (local s') = lastId (local s)).
    { unfold die, GoAway in Hr. unfold_M. simpl in Hr. rewrite Hd in Hr. simpl in Hr.
      by repeat case_match; simplify_eq. }
    destruct Hinv. destruct (inv_alive0 Hd) as [Hdead _].
    destruct (die_first _ _ _ _ _ Hd Hr) as (_&_&_&_&Hdead'&_&_&[Ht|Ht]).
    all: eexists; split_and!; [exact Ht| | |done].
    all: unfold shut_count; rewrite ?Hdead, ?Hdead'; try done.
    all: by destruct err.
  - rewrite die_again in Hr by done. simplify_eq. apply extends_refl.
Qed.

Lemma extends_getStream w id s r s' :
  invariant s → getStream w id s = Some (r, s') → extends s s'.
Proof.
  intros Hinv Hr. unfold getStream in Hr. paths; eauto using extends_die, extends_refl.
Qed.

Lemma extends_handleSyn o f s r s' : handleSyn o f s = Some (r, s') → extends s s'.
Proof. intros Hr. unfold handleSyn in Hr. paths; extends_now. Qed.

Lemma extends_handleFrame w o rf s r s' :
  invariant s → handleFrame w o rf s = Some (r, s') → extends s s'.
Proof.
  intros Hinv Hr. unfold handleFrame in Hr. paths; eauto using extends_handleSyn.
  all: try match goal with
       | H : getStream _ _ _ = Some _ |- _ =>
           apply extends_getStream in H; [|done]; eapply extends_trans; [exact H|]
       end.
  all: try apply extends_refl.
  all: extends_now.
Qed.

Lemma extends_reader_iter w o rx s r s' :
  invariant s → reader_iter w o rx s = Some (r, s') → extends s s'.
Proof.
  intros Hinv Hr. unfold reader_iter in Hr. paths; eauto using extends_die.
  all: match goal with
       | H : handleFrame _ _ _ _ = Some _ |- _ =>
           pose proof (invariant_handleFrame _ _ _ _ _ _ H Hinv);
           apply extends_handleFrame in H; [|done]
       end.
  all: eauto using extends_trans, extends_die.
Qed.

Lemma OpenStream_trace w s r s' :
  invariant s → OpenStream w s = Some (r, s') →
  ∃ t, trace s' = trace s ++ t ∧
       (closes t + shut_count s = shut_count s')%nat ∧
       (syn_ids t = [] ∧ lastId (local s) ≤ lastId (local s') ∨
        syn_ids t = [lastId (local s')] ∧ lastId (local s) < lastId (local s')).
Proof.
  intros [] Hr. unfold OpenStream in Hr. paths.
  all: try specialize (inv_mutex0 eq_refl).
  all: first
    [ exists []; split_and!; [simpl; by rewrite app_nil_r|reflexivity|]
    | eexists; split_and!; [simpl; rewrite <- ?app_assoc; reflexivity|reflexivity|] ].
  all: simpl; rewrite ?uint32_small by lia.
  all: first [left; split; [reflexivity|lia] | right; split; [reflexivity|lia]].
Qed.

Lemma run_trace c s :
  invariant s →
  ∃ t, trace (run c s) = trace s ++ t ∧
       (closes t + shut_count s = shut_count (run c s))%nat ∧
       (syn_ids t = [] ∧ lastId (local s) ≤ lastId (local (run c s)) ∨
        syn_ids t = [lastId (local (run c s))] ∧
        lastId (local s) < lastId (local (run c s))).
Proof.
  intros Hinv.
  assert (Hext : ∀ s', extends s s' →
    ∃ t, trace s' = trace s ++ t ∧ (closes t + shut_count s = shut_count s')%nat ∧
         (syn_ids t = [] ∧ lastId (local s) ≤ lastId (local s') ∨
          syn_ids t = [lastId (local s')] ∧ lastId (local s) < lastId (local s'))).
  { intros s' (t & Ht & Hsyn & Hc & Hl). exists t. split_and!; [done..|]. left. split; [done|lia]. }
  destruct c; unfold run, after.
  - destruct (OpenStream w s) as [[r s']|] eqn:E; [|apply Hext, extends_refl].
    by eapply OpenStream_trace.
  - destruct (AcceptStream s) as [[r s']|] eqn:E; [|apply Hext, extends_refl].
    apply Hext. unfold AcceptStream, Wait in *. paths; extends_now.
  - destruct (Close w s) as [[r s']|] eqn:E; [|apply Hext, extends_refl].
    apply Hext. by eapply extends_die.
  - destruct (GoAway w errCode debug dl s) as [[r s']|] eqn:E; [|apply Hext, extends_refl].
    apply Hext. by eapply extends_GoAway.
  - destruct (Wait s) as [[r s']|] eqn:E; [|apply Hext, extends_refl].
    apply Hext. unfold Wait in *. paths. apply extends_refl.
  - destruct (removeStream id s) as [[r s']|] eqn:E; [|apply Hext, extends_refl].
    apply Hext. unfold removeStream in *. paths. extends_now.
  - destruct (die w err s) as [[r s']|] eqn:E; [|apply Hext, extends_refl].
    apply Hext. by eapply extends_die.
  - destruct (reader_iter w o rx s) as [[r s']|] eqn:E; [|apply Hext, extends_refl].
    apply Hext. by eapply extends_reader_iter.
Qed.

(** X10: in every reachable session [dead] has been closed at most once: exactly
    once if it is closed, never if it is not. *)
Theorem dead_closed_once s :
  reachable s → closes (trace s) = (if dead s then 1 else 0)%nat.
Proof.
  induction 1 as [b|c s Hs IH]; [by destruct b|].
  destruct (run_trace c s (reachable_invariant _ Hs)) as (t & Ht & Hc & _).
  rewrite Ht, closes_app, IH. unfold shut_count in Hc. lia.
Qed.


(** ** Writing *)

(** X11: [writeFrame] returns [sessionClosed] only when [dead] is closed and
    [writeTimeout] only under a deadline; it returns nil only after the
    frame was handed to the writer; it hands the frame over at most once and
    touches nothing else. *)
Theorem writeFrame_errors w f dl s r s' :
  writeFrame w f dl s = Some (r, s') →
  (r = Some sessionClosed → dead s = true) ∧
  (r = Some writeTimeout → dl ≠ zeroTime) ∧
  (r = None → trace s' = trace s ++ [EvEnqueue f]) ∧
  (s' = s ∨ s' = set_trace (trace s ++ [EvEnqueue f]) s).
Proof.
  intros Hr. unfold writeFrame in Hr. destruct w as [res|queued|queued]; paths.
  all: split_and!; try done; auto.
  all: try (destruct res; simplify_eq/=; done).
  all: destruct dl; done.
Qed.

(** X7: [GoAway] marks the local half as gone away whether or not the GOAWAY
    goes out; the frame it submits carries the current [remote.lastId]; it
    returns nil only when that frame was handed to the writer; and it leaves
    the streams and the ids alone. *)
Theorem GoAway_frame w errCode debug dl s r s' :
  GoAway w errCode debug dl s = Some (r, s') →
  goneAway (local s') = 1 ∧ lastId (local s') = lastId (local s) ∧
  remote s' = remote s ∧ streams s' = streams s ∧ dieOnce s' = dieOnce s ∧
  (r = None →
     trace s' = trace s ++ [EvEnqueue (FGoAway {| LastStreamId := lastId (remote s);
                                                  GoAway_ErrorCode := errCode;
                                                  Debug := debug |})]) ∧
  (∀ e, GoAway_Pack (lastId (remote s)) errCode debug = Some e →
     r = Some (foreign e) ∧ trace s' = trace s).
Proof.
  intros Hr. unfold GoAway in Hr. paths; simpl in *.
  all: split_and!; try done.
  all: try (intros; simplify_eq; done).
  all: try (destruct r0; simplify_eq/=; done).
Qed.


(** ** Leaving the table *)

(** X20: [removeStream] takes the stream out of the table and leaves the others
    in; it does nothing to the table when the stream is not there.  A DATA
    frame that arrives for the stream afterwards is drained and answered
    with a RST with code [StreamClosed], and is no error. *)
Theorem removeStream_then_data id s :
  ∃ s1, removeStream id s = Some (tt, s1) ∧
    streams s1 = delete id (streams s) ∧
    (streams s !! id = None → streams s1 = streams s) ∧
    ∀ w o f, Data_StreamId f = id → Syn f = false → 0 ≤ Length f < 2 ^ 32 →
      uint32 id ≤ lastId (if isLocal s id then local s else remote s) →
      Length f ≤ Z.of_nat (length (delivered (Data_Reader f))) →
      Rst_Pack id StreamClosed = None →
      handleFrame w o (FData f) s1
        = Some (None, set_trace (trace s1 ++ [EvDiscard (Length f);
                                              EvGo (rstFrame id StreamClosed)]) s1).
Proof.
  eexists. split; [reflexivity|]. simpl. split_and!; [done|by apply delete_id|].
  intros w o f <- Hsyn Hlen Hid Hfull Hpack.
  unfold handleFrame. rewrite Hsyn. unfold_M.
  rewrite getStream_known by done. simpl. rewrite lookup_delete_eq.
  unfold io_Copy_Discard. rewrite Z.min_r by lia. rewrite Z.ltb_irrefl.
  destruct (fault (Data_Reader f)) as [[]|]; simpl.
  all: rewrite uint32_small, Z.ltb_irrefl, Hpack by lia.
  all: unfold set_trace, rstFrame; simpl; by rewrite <- !app_assoc.
Qed.

(** ** Accepting streams *)

(** X21: a SYN that passes the checks while the accept channel has room: the
    stream is made with the window of the session and the FIN flag of the
    frame, put into the table and sent on the accept channel, behind the
    streams that wait there, and only then handed the SYN frame; no RST is
    sent.
    [AcceptStream] takes the streams in the order in which they were
    sent: on an empty channel it returns this one. *)
Theorem handleSyn_accepted_in_order f s :
  let id := Data_StreamId f in
  let str := newStream id (windowSize s) (Fin f) in
  goneAway (local s) ≠ 1 → lastId (remote s) ≤ id → isLocal s id = false →
  Z.of_nat (length (accept s)) < defaultAcceptQueueDepth →
  ∃ s1, handleSyn AcceptSent f s = Some ((handleStreamData str f).2, s1) ∧
    trace s1 = trace s ++ [EvSet id; EvAccept id; EvStreamData id f] ∧
    streams s1 = <[id := (handleStreamData str f).1]> (streams s) ∧
    accept s1 = accept s ++ [id] ∧
    AcceptStream s1
      = Some (inr (hd id (accept s)), set_accept (tl (accept s ++ [id])) s1).
Proof.
  intros id str Hg Hlast Hparity Hroom. subst id str. eexists. split.
  - unfold handleSyn. unfold_M. simpl.
    destruct (Z.eqb_spec (goneAway (local s)) 1); [done|]. simpl.
    destruct (Z.ltb_spec (Data_StreamId f) (lastId (remote s))); [lia|]. simpl.
    rewrite Hparity.
    destruct (Z.ltb_spec (Z.of_nat (length (accept s))) defaultAcceptQueueDepth); [|lia].
    reflexivity.
  - simpl. split_and!; [by rewrite <- !app_assoc|by rewrite insert_insert_eq|done|].
    unfold AcceptStream. simpl. by destruct (accept s).
Qed.

(** X15: after the reader has left on a failed read of a live session whose
    accept channel is empty, [AcceptStream] returns the cause: "closed by
    remote peer" after [io.EOF], and the read error otherwise. *)
Theorem AcceptStream_after_reader w o err s u s' :
  dieOnce s = 0 → accept s = [] →
  reader [(w, o, inl err)] s = Some (u, s') →
  AcceptStream s' = Some (inl (acceptError (readCause err)), s').
Proof.
  intros Hd Hempty Hr. cbn [reader] in Hr. unfold_M.
  destruct (reader_iter w o (inl err) s) as [[continue s1]|] eqn:Hiter; [|done].
  assert (Hs1 : continue = false ∧ dead s1 = true ∧ dieErr s1 = readCause err ∧
                accept s1 = []).
  { unfold reader_iter in Hiter. unfold_M. unfold readCause.
    destruct (is_EOF (fromFrameError err)).
    all: match type of Hiter with context [die ?w ?e ?s] =>
           destruct (die w e s) as [[r1 s2]|] eqn:Hdie; [|done] end.
    all: simplify_eq; destruct (die_first _ _ _ _ _ Hd Hdie) as (_&_&_&?&?&_).
    all: split_and!; try done.
    all: unfold die, GoAway in Hdie; unfold_M; simpl in Hdie; rewrite Hd in Hdie.
    all: simpl in Hdie; repeat case_match; simplify_eq; simpl; done. }
  destruct Hs1 as (-> & Hdead & Herr & Hacc). simplify_eq.
  unfold AcceptStream, Wait. unfold_M. simpl. rewrite Hacc, Hdead, Herr.
  by destruct (readCause err).
Qed.

(** ** Parity *)

(** X1: client ids are the odd ones and server ids the even ones; two ids that
    differ by 2 have the same parity; id 0 is a server id. *)
Theorem parity_of_ids id :
  0 ≤ id → id + 2 < 2 ^ 32 →
  isClient id = Z.odd id ∧ isServer id = Z.even id ∧
  isClient (id + 2) = isClient id ∧ isServer (id + 2) = isServer id ∧
  isServer 0 = true.
Proof.
  intros H1 H2.
  assert (Hc : isClient id = Z.odd id) by (rewrite isClient_odd, uint32_small; [done|lia]).
  unfold isServer. rewrite isClient_add2 by done. rewrite Hc, Z.negb_odd. done.
Qed.

(** ** Opening streams *)



(** X4: the SYN that [OpenStream] submits opens the stream at the peer: a
    session of the other role that has not gone away, has seen no id above
    it and has room in its accept channel accepts the frame under the same
    id. *)
Theorem open_accept_round_trip w c str c' w' peer :
  reachable c → newStreamMutex c = false →
  OpenStream w c = Some (inr str, c') →
  (∀ id, isLocal peer id = negb (isLocal c id)) →
  goneAway (local peer) ≠ 1 → lastId (remote peer) ≤ Id str →
  Z.of_nat (length (accept peer)) < defaultAcceptQueueDepth →
  let f := packedData (Id str) [] false true in
  EvEnqueue (FData f) ∈ new_events c c' ∧
  ∃ r peer', handleFrame w' AcceptSent (FData f) peer = Some (r, peer') ∧
    accept peer' = accept peer ++ [Id str] ∧
    is_Some (streams peer' !! Id str) ∧
    lastId (remote peer') = Id str.
Proof.
  intros Hreach Hm Hopen Hrole Hg Hlast Hroom f. subst f.
  apply reachable_invariant in Hreach as []. specialize (inv_mutex0 Hm).
  assert (Hl : uint32 (lastId (local c) + 2) = lastId (local c) + 2)
    by (apply uint32_small; lia).
  assert (Hfacts : Id str = lastId (local c) + 2 ∧
                   trace c' = trace c ++ [EvLock; EvSet (Id str);
                     EvEnqueue (FData (packedData (Id str) [] false true)); EvUnlock]).
  { unfold OpenStream in Hopen. paths; simpl in *; rewrite ?Hl.
    all: try (destruct r; simplify_eq/=; done).
    all: by rewrite Id_newStream, <- !app_assoc. }
  destruct Hfacts as [Hid Htrace]. split.
  { unfold new_events. rewrite Htrace, drop_app_length.
    rewrite !elem_of_cons. auto. }
  assert (Hparity : isLocal peer (Id str) = false).
  { rewrite Hrole, Hid. rewrite <- (isLocal_add2 c), uint32_small in inv_parity0
      by (done || lia). by rewrite inv_parity0. }
  eexists _, _. split.
  - unfold handleFrame, handleSyn. unfold_M. simpl.
    destruct (Z.eqb_spec (goneAway (local peer)) 1); [done|]. simpl.
    destruct (Z.ltb_spec (Id str) (lastId (remote peer))); [lia|]. simpl.
    rewrite Hparity.
    destruct (Z.ltb_spec (Z.of_nat (length (accept peer))) defaultAcceptQueueDepth); [|lia].
    reflexivity.
  - simpl. split_and!; [done|by rewrite lookup_insert_eq|].
    apply uint32_small. lia.
Qed.

(** ** The loop of the reader *)

(** X24: the reader goes on to the next frame exactly when [handleFrame] has
    returned nil and [dead] is still open.  An error of [handleFrame]
    shuts the session down with that error, unless the session was shut
    down before, in which case nothing changes any more. *)
Theorem reader_iter_frame w o rf s continue s' :
  reader_iter w o (inr rf) s = Some (continue, s') →
  ∃ r s1, handleFrame w o rf s = Some (r, s1) ∧
    (continue = true ↔ r = None ∧ dead s1 = false) ∧
    (r = None → s' = s1) ∧
    (∀ e, r = Some e → dieOnce s1 = 0 →
       dead s' = true ∧ transportClosed s' = true ∧ dieErr s' = Some e) ∧
    (∀ e, r = Some e → dieOnce s1 ≠ 0 → s' = s1).
Proof.
  intros Hr. unfold reader_iter in Hr. unfold mbind, M_bind in Hr.
  destruct (handleFrame w o rf s) as [[r s1]|] eqn:Hh; [|done].
  exists r, s1. split; [done|]. destruct r as [e|].
  - destruct (die w (Some e) s1) as [[r2 s2]|] eqn:Hd; [|done].
    unfold mret, M_ret in Hr. simplify_eq. split; [|split; [|split]].
    + split; [done|]. by intros [? ?].
    + done.
    + intros e' [= <-] Hzero.
      by destruct (die_first _ _ _ _ _ Hzero Hd) as (_ & _ & _ & ? & ? & ? & _).
    + intros e' [= <-] Hzero. rewrite die_again in Hd by done. by simplify_eq.
  - unfold get, mret, M_ret in Hr. simplify_eq. split; [|split; [|split]]; try done.
    destruct (dead s'); split; try done; by intros [? ?].
Qed.

(** X25: once the session is shut down the reader handles at most one more
    read: whatever [ReadFrame] returns, the iteration leaves the loop, and
    the shutdown state ([dieOnce], [dead], [dieErr]) stays as it is. *)
Theorem reader_leaves_after_shutdown w o rx s continue s' :
  dieOnce s = 1 → dead s = true →
  reader_iter w o rx s = Some (continue, s') →
  continue = false ∧ same_shutdown s s'.
Proof.
  intros Hone Hdead Hr.
  assert (Hnz : dieOnce s ≠ 0) by lia.
  destruct rx as [err|rf]; unfold reader_iter in Hr; unfold mbind, M_bind in Hr.
  - destruct (is_EOF (fromFrameError err)); rewrite die_again in Hr by done.
    all: unfold mret, M_ret in Hr; by simplify_eq.
  - destruct (handleFrame w o rf s) as [[r s1]|] eqn:Hh; [|done].
    destruct (shut_handleFrame _ _ _ _ _ _ Hh Hnz) as (H1 & H2 & H3).
    destruct r as [e|].
    + rewrite die_again in Hr by congruence.
      unfold mret, M_ret in Hr. injection Hr as <- <-. by split.
    + unfold get, mret, M_ret in Hr. injection Hr as <- <-.
      split; [by rewrite H3, Hdead|by split].
Qed.

(** ** Opening streams that fail *)

(** X26: an [OpenStream] that fails after the exhaustion check, on the packing
    or on the write of the SYN, has used up the id all the same and leaves
    the stream it made in the table; the mutex is released. *)
Theorem OpenStream_failure_keeps_stream w s e s' :
  reachable s → newStreamMutex s = false → goneAway (remote s) ≠ 1 →
  OpenStream w s = Some (inl e, s') → e ≠ streamsExhausted →
  let l := lastId (local s) + 2 in
  lastId (local s') = l ∧
  streams s' = <[l := newStream l (windowSize s) false]> (streams s) ∧
  newStreamMutex s' = false.
Proof.
  intros Hreach Hm Hg Hopen He l. subst l.
  apply reachable_invariant in Hreach as []. specialize (inv_mutex0 Hm).
  assert (Hl : uint32 (lastId (local s) + 2) = lastId (local s) + 2)
    by (apply uint32_small; lia).
  unfold OpenStream in Hopen. paths; simpl in *; rewrite ?Hl; try done.
  all: lia.
Qed.

(** ** Closing *)

(** X27: [Close] on a live session returns nil once its GOAWAY is written or
    abandoned; every stream of the table has then been closed with the
    error "Session closed", none has left the table, [Wait] returns at
    once, with a nil error, and another [Close] returns [sessionClosed]. *)
Theorem Close_then_Wait w s r s' :
  dieOnce s = 0 → Close w s = Some (r, s') →
  r = None ∧
  (∀ id, streams s' !! id
         = (λ str, closeWith str (fmt_Errorf "Session closed" [])) <$> streams s !! id) ∧
  Wait s' = Some ((None, remoteError s, remoteDebug s), s') ∧
  Close w s' = Some (Some sessionClosed, s').
Proof.
  intros Hd Hr. unfold Close in *.
  destruct (die_first _ _ _ _ _ Hd Hr) as (-> & Hone & _ & Herr & Hdead & _ & Hstreams & _).
  assert (Hremote : remoteError s' = remoteError s ∧ remoteDebug s' = remoteDebug s).
  { unfold die, GoAway in Hr. unfold_M. simpl in Hr. rewrite Hd in Hr. simpl in Hr.
    repeat case_match; by simplify_eq/=. }
  destruct Hremote as [He Hdebug].
  split; [done|]. split; [exact Hstreams|]. split.
  - unfold Wait. by rewrite Hdead, Herr, He, Hdebug.
  - apply die_again. lia.
Qed.

(** ** Accepting *)

Lemma runs_AcceptStream n s :
  (n ≤ length (accept s))%nat →
  runs (replicate n CallAcceptStream) s = set_accept (drop n (accept s)) s.
Proof.
  revert s. induction n as [|n IH]; intros s Hn.
  - by destruct s.
  - destruct (accept s) as [|id rest] eqn:Hacc; [simpl in Hn; lia|].
    change (runs (replicate (S n) CallAcceptStream) s)
      with (runs (replicate n CallAcceptStream) (after AcceptStream s)).
    unfold after, AcceptStream. rewrite Hacc. rewrite IH by (simpl in *; lia).
    reflexivity.
Qed.

(** X28: [AcceptStream] hands out the streams of the accept channel in the
    order in which they were put there, whether or not the session has
    been shut down in the meantime; only when the channel is empty does it
    report the closing of the session, and it blocks on an empty channel
    that is still open. *)
Theorem AcceptStream_drains_queue n s :
  let s_n := runs (replicate n CallAcceptStream) s in
  (n ≤ length (accept s))%nat →
  accept s_n = drop n (accept s) ∧
  (∀ id, accept s !! n = Some id →
     AcceptStream s_n = Some (inr id, set_accept (drop (S n) (accept s)) s_n)) ∧
  (n = length (accept s) → acceptClosed s = true → dead s = true →
     AcceptStream s_n = Some (inl (acceptError (dieErr s)), s_n)) ∧
  (n = length (accept s) → acceptClosed s = false → AcceptStream s_n = None).
Proof.
  intros s_n Hn. subst s_n. rewrite runs_AcceptStream by done.
  split; [done|]. split_and!.
  - intros id Hid. unfold AcceptStream. simpl.
    by rewrite (drop_S _ _ _ Hid).
  - intros -> Hc Hdead. unfold AcceptStream, Wait. unfold_M. simpl.
    rewrite drop_all, Hc, Hdead. by destruct (dieErr s).
  - intros -> Hc. unfold AcceptStream. simpl. by rewrite drop_all, Hc.
Qed.

(** ** Who changes the stream table *)

Ltac sets :=
  rewrite ?difference_empty_L, ?union_empty_r_L, ?(assoc_L (∪)), ?(idemp_L (∪));
  repeat split;
  first [ done | apply union_subseteq_r | apply union_subseteq_l
        | rewrite (comm_L (∪)); done ].

Lemma dom_imap_total (f : Z → stream → stream) (m : gmap Z stream) :
  dom (map_imap (λ id str, Some (f id str)) m) = dom m.
Proof.
  apply set_eq. intros id. rewrite !elem_of_dom, map_lookup_imap.
  destruct (m !! id); simpl; split; intros [? ?]; eauto; done.
Qed.

Lemma dom_GoAway w errCode debug dl s r s' :
  GoAway w errCode debug dl s = Some (r, s') → streams s' = streams s.
Proof. intros Hr. unfold GoAway in Hr. by paths. Qed.

Lemma dom_die w err s r s' :
  die w err s = Some (r, s') → dom (streams s') = dom (streams s).
Proof.
  intros Hr. unfold die in Hr. unfold_M. simpl in Hr.
  destruct (dieOnce s =? 0); simpl in Hr; [|by simplify_eq].
  destruct err as [e|]; simpl in Hr.
  all: match type of Hr with context [GoAway ?w ?c ?d ?t ?s] =>
         destruct (GoAway w c d t s) as [[r1 s1]|] eqn:HG; [|done] end.
  all: apply dom_GoAway in HG; simplify_eq; simpl.
  all: by rewrite dom_imap_total, HG.
Qed.

Lemma dom_getStream w id s r s' :
  getStream w id s = Some (r, s') → dom (streams s') = dom (streams s).
Proof.
  intros Hr. unfold getStream in Hr. paths; try done; by eapply dom_die.
Qed.

Lemma dom_handleSyn o f s r s' :
  handleSyn o f s = Some (r, s') →
  dom (streams s) ⊆ dom (streams s') ∧
  dom (streams s') ⊆ {[Data_StreamId f]} ∪ dom (streams s).
Proof.
  intros Hr. unfold handleSyn in Hr. paths; simpl.
  all: rewrite ?dom_insert_L; sets.
Qed.

Lemma dom_handleFrame w o rf s r s' :
  match rf with FData f => Syn f = false | _ => True end →
  handleFrame w o rf s = Some (r, s') → dom (streams s') = dom (streams s).
Proof.
  intros Hrf Hr. unfold handleFrame in Hr. paths; try done.
  all: try match goal with
       | H : getStream _ _ _ = Some _ |- _ =>
           pose proof (getStream_result _ _ _ _ _ H) as Hres;
           apply dom_getStream in H
       end.
  all: simpl; try done.
  all: try (rewrite dom_insert_lookup_L by (rewrite <- Hres; eauto); done).
  by rewrite dom_imap_total.
Qed.

(** X29: the stream table changes hands in three places only.  A call puts at
    most one stream into it, and only [OpenStream], under the id it
    allocates, and the handling of a SYN, under the id of the frame, put
    any; and nothing but [removeStream] ever takes a stream out: not a RST,
    not a GOAWAY, and not the shutdown of the session. *)
Theorem table_changes c s :
  dom (streams s) ∖ may_remove c ⊆ dom (streams (run c s)) ∧
  dom (streams (run c s)) ⊆ dom (streams s) ∖ may_remove c ∪ may_add c s.
Proof.
  assert (Hsame : ∀ s', dom (streams s') = dom (streams s) →
    dom (streams s) ∖ ∅ ⊆ dom (streams s') ∧
    dom (streams s') ⊆ dom (streams s) ∖ ∅ ∪ ∅) by (intros s' ->; sets).
  destruct c as [w| |w|w errCode debug dl| |id|w err|w o rx]; simpl; unfold after.
  - destruct (OpenStream w s) as [[r s']|] eqn:Hr; [|sets].
    unfold OpenStream in Hr. paths; simpl; rewrite ?dom_insert_L; sets.
  - destruct (AcceptStream s) as [[r s']|] eqn:Hr; [|by apply Hsame].
    apply Hsame. unfold AcceptStream, Wait in Hr. by paths.
  - destruct (Close w s) as [[r s']|] eqn:Hr; [|by apply Hsame].
    apply Hsame. by eapply dom_die.
  - destruct (GoAway w errCode debug dl s) as [[r s']|] eqn:Hr; [|by apply Hsame].
    apply Hsame. by rewrite (dom_GoAway _ _ _ _ _ _ _ Hr).
  - destruct (Wait s) as [[r s']|] eqn:Hr; [|by apply Hsame].
    apply Hsame. unfold Wait in Hr. by paths.
  - unfold removeStream. unfold_M. simpl. rewrite dom_delete_L. sets.
  - destruct (die w err s) as [[r s']|] eqn:Hr; [|by apply Hsame].
    apply Hsame. by eapply dom_die.
  - destruct (reader_iter w o rx s) as [[r s']|] eqn:Hr;
      [|destruct rx as [|[f| | | |]]; simpl; try destruct (Syn f); sets].
    unfold reader_iter in Hr. unfold mbind, M_bind in Hr.
    destruct rx as [e|rf].
    + apply Hsame. destruct (is_EOF (fromFrameError e)).
      all: match type of Hr with context [die ?w ?e ?s] =>
             destruct (die w e s) as [[r1 s1]|] eqn:Hd; [|done] end.
      all: apply dom_die in Hd; unfold mret, M_ret in Hr; by simplify_eq.
    + destruct (handleFrame w o rf s) as [[r1 s1]|] eqn:Hh; [|done].
      assert (Hrest : dom (streams s') = dom (streams s1)).
      { destruct r1 as [e|].
        - destruct (die w (Some e) s1) as [[r2 s2]|] eqn:Hd; [|done].
          apply dom_die in Hd. unfold mret, M_ret in Hr. by simplify_eq.
        - unfold get, mret, M_ret in Hr. by simplify_eq. }
      rewrite Hrest.
      destruct rf as [f| | | |]; simpl.
      2-5: apply Hsame; eapply dom_handleFrame; [|exact Hh]; exact I.
      destruct (Syn f) eqn:Hsyn.
      * unfold handleFrame in Hh. rewrite Hsyn in Hh.
        apply dom_handleSyn in Hh. destruct Hh. sets.
      * apply Hsame. eapply dom_handleFrame; [|exact Hh]. exact Hsyn.
Qed.
End Session.

(** * Concrete runs

    The theorems above at sessions built on the test doubles, and the
    inputs on which the code departs from the specification. *)

Import Double.

Definition syn (id : StreamId) (payload : list byte) : Data :=
  {| Data_StreamId := id; Syn := true; Fin := false;
     Length := Z.of_nat (length payload);
     Data_Reader := {| delivered := payload; fault := None |} |}.

(** A DATA frame of declared length [len] of which the transport delivers
    [payload] before it ends. *)
Definition data (id : StreamId) (len : Z) (payload : list byte) : Data :=
  {| Data_StreamId := id; Syn := false; Fin := false; Length := len;
     Data_Reader := {| delivered := payload; fault := None |} |}.

Definition ping : list byte := ["p"; "i"; "n"; "g"]%byte.

Definition client : session := newSession (stream:=stream) true.

Definition server : session := newSession (stream:=stream) false.

(** A server that has sent its GOAWAY. *)
Definition server_gone : session :=
  run (CallGoAway (Written None) NoError [] zeroTime) server.

(** A client that has used up its stream ids but for the last. *)
Definition client_last : session := wr ref_local_lastId 0x7FFFFFFF client.

(** A client that has opened the streams 3, 5, 7 and 9. *)
Definition client_four : session :=
  runs (replicate 4 (CallOpenStream (Written None))) client.

(** Run the method [m] on a concrete session: its result is [v], and the
    session it leaves gets a name.  Only results and fields are computed,
    never a session as a whole. *)
Ltac returns m v :=
  let H := fresh "H" in
  assert (H : fst <$> m = Some v) by (vm_compute; reflexivity);
  destruct m as [[? ?]|] eqn:?; [simpl in H; injection H as ->|discriminate H].

(** ** Construction (C8) *)

(** C8 as stated fails: the server half does not start at 2, on a client or
    on a server. *)
Lemma newSession_server_half_not_2 :
  ¬ (∀ isClientRole : bool,
       lastId (clientHalf isClientRole (newSession (stream:=stream) isClientRole)) = 1 ∧
       lastId (serverHalf isClientRole (newSession (stream:=stream) isClientRole)) = 2).
Proof. intros H. destruct (H true) as [_ H2]. simpl in H2. discriminate. Qed.

Lemma newSession_lastId_witness :
  ∃ s', OpenStream (Written None) server = Some (inr (fresh 2 defaultWindowSize false), s') ∧
        Id (fresh 2 defaultWindowSize false) = 2.
Proof.
  returns (OpenStream (Written None) server)
          (inr (A:=error) (fresh 2 defaultWindowSize false)).
  eexists. split; [reflexivity|].
  eapply (proj2 (proj2 (newSession_lastId false))). eassumption.
Defined.

(** ** Opening streams (C4, C7) *)

Lemma OpenStream_spec_witness :
  reachable client ∧
  ∃ s', OpenStream (Written None) client = Some (inr (fresh 3 defaultWindowSize false), s') ∧
        lastId (local s') = 3 ∧
        streams s' !! 3 = Some (fresh 3 defaultWindowSize false).
Proof.
  split; [apply reachable_new|].
  destruct (OpenStream_spec (Written None) client (reachable_new true)) as [_ Hopen].
  destruct Hopen as (_ & _ & Hres); [vm_compute; discriminate|reflexivity|].
  returns (OpenStream (Written None) client)
          (inr (A:=error) (fresh 3 defaultWindowSize false)).
  edestruct Hres as (Hlast & _ & Hstr); [reflexivity|].
  destruct (Hstr _ eq_refl) as (_ & Htable & _).
  eexists. split; [reflexivity|]. split; [exact Hlast|exact Htable].
Defined.

Lemma OpenStream_exhausted_holds_mutex_witness :
  ∃ s', OpenStream (Written None) client_last = Some (inl streamsExhausted, s') ∧
        newStreamMutex s' = true ∧
        trace s' = trace client_last ++ [EvLock] ∧
        ∀ w', OpenStream w' s' = None.
Proof.
  apply OpenStream_exhausted_holds_mutex.
  - vm_compute. discriminate.
  - reflexivity.
  - vm_compute. reflexivity.
Defined.

(** ** Shutdown (C3, C9) *)

Lemma shutdown_runs_once_witness :
  rtc step (initial (stream:=stream) true) (initial true) ∧
  ∃ s', Close (Written None) client = Some (None, s') ∧
        dead s' = true ∧
        Close (Written None) s' = Some (Some sessionClosed, s').
Proof.
  split; [apply rtc_refl|].
  destruct (shutdown_runs_once true (initial true) (rtc_refl _ _))
    as (Hclose & Hreturns & _).
  destruct (Hreturns (Written None)) as [[r s'] E]; [reflexivity|discriminate|].
  destruct (Hclose _ _ _ E) as (Hfirst & _ & Hlater).
  destruct Hfirst as (-> & _ & _ & Hdead & _); [reflexivity|].
  exists s'. split; [exact E|]. split; [exact Hdead|]. exact (Hlater [] _).
Defined.

(** A run in which the session is closed and a call of [Wait] then goes
    through its four steps. *)
Lemma dieErr_stored_before_dead_closed_witness :
  ∃ σ, rtc step (initial true) σ ∧
       threads σ !! 0%nat = Some (Waited (None, None, [])) ∧
       dead (shared σ) = true ∧ dieErr (shared σ) = None.
Proof.
  pose (s1 := run (CallClose (Written None)) client).
  assert (Hdead : dead s1 = true) by (vm_compute; reflexivity).
  assert (Herr : dieErr s1 = None) by (vm_compute; reflexivity).
  assert (Hrerr : remoteError s1 = None) by (vm_compute; reflexivity).
  assert (Hdebug : remoteDebug s1 = []) by (vm_compute; reflexivity).
  assert (Hclose : step (initial true) {| shared := s1; threads := [] |})
    by apply (step_call (initial true)).
  clearbody s1.
  assert (Hrun : rtc step (initial true)
                   {| shared := s1; threads := [Waited (None, None, [])] |}).
  { eapply rtc_l; [exact Hclose|].
    eapply rtc_l; [apply (step_start _ WaitDead); by left|].
    eapply rtc_l.
    { eapply (step_thread _ 0%nat WaitDead WaitDieErr s1); [reflexivity|].
      simpl. unfold mbind, M_bind, get. by rewrite Hdead. }
    eapply rtc_l.
    { eapply (step_thread _ 0%nat WaitDieErr (WaitRemoteError None) s1); [reflexivity|].
      simpl. unfold mbind, M_bind, get, mret, M_ret. by rewrite Herr. }
    eapply rtc_l.
    { eapply (step_thread _ 0%nat (WaitRemoteError None) (WaitRemoteDebug None None) s1);
        [reflexivity|].
      simpl. unfold mbind, M_bind, get, mret, M_ret. by rewrite Hrerr. }
    eapply rtc_l.
    { eapply (step_thread _ 0%nat (WaitRemoteDebug None None) (Waited (None, None, [])) s1);
        [reflexivity|].
      simpl. unfold mbind, M_bind, get, mret, M_ret. by rewrite Hdebug. }
    apply rtc_refl. }
  eexists. split; [exact Hrun|]. split; [reflexivity|].
  destruct (dieErr_stored_before_dead_closed _ _ Hrun) as (_ & _ & _ & _ & Hfinal).
  exact (Hfinal 0%nat None None [] _ eq_refl (rtc_refl _ _)).
Defined.

(** ** Incoming SYN frames (C1, C2, C10) *)

(** C1 as stated fails twice.  A fresh server has [remote.lastId = 1] and
    accepts a SYN with id 1, which is not above it.  And a server that has
    gone away answers a SYN of the wrong parity (id 2) with a RST and
    returns nil: no [ProtocolError]. *)
Lemma handleSyn_accepts_id_not_above_lastId :
  (∃ r s', handleSyn AcceptSent (syn 1 []) server = Some (r, s') ∧
           accepted (syn 1 []) server s' ∧
           is_Some (streams s' !! 1) ∧
           ¬ lastId (remote server) < 1) ∧
  (∃ s', handleSyn AcceptSent (syn 2 []) server_gone = Some (None, s') ∧
         isLocal server_gone 2 = true).
Proof.
  split.
  - assert (Ht : (λ x, trace x.2) <$> handleSyn AcceptSent (syn 1 []) server
                 = Some [EvSet 1; EvAccept 1; EvStreamData 1 (syn 1 [])])
      by (vm_compute; reflexivity).
    assert (Hs : (λ x, streams x.2 !! 1) <$> handleSyn AcceptSent (syn 1 []) server
                 = Some (Some (record_data (fresh 1 defaultWindowSize false) (syn 1 []))))
      by (vm_compute; reflexivity).
    destruct (handleSyn AcceptSent (syn 1 []) server) as [[r s']|]; [|discriminate Ht].
    simpl in Ht, Hs. injection Ht as Ht. injection Hs as Hs.
    exists r, s'. split; [reflexivity|]. split_and!.
    + exists [EvAccept 1; EvStreamData 1 (syn 1 [])]. exact Ht.
    + rewrite Hs. eauto.
    + vm_compute. discriminate.
  - returns (handleSyn AcceptSent (syn 2 []) server_gone) (@None error).
    eexists. split; [reflexivity|]. vm_compute. reflexivity.
Qed.

Lemma handleSyn_accepts_witness :
  ∃ r s', handleSyn AcceptSent (syn 3 ping) server = Some (r, s') ∧
          accepted (syn 3 ping) server s' ∧
          lastId (remote s') = 3 ∧
          is_Some (streams s' !! 3).
Proof.
  destruct (handleSyn_returns AcceptSent (syn 3 ping) server) as [[r s'] E].
  destruct (handleSyn_accepts AcceptSent (syn 3 ping) server) as [Hsyn _].
  destruct (Hsyn r s' E) as (Hiff & Hacc & _).
  assert (Ha : accepted (syn 3 ping) server s').
  { apply Hiff. split_and!; [vm_compute; discriminate|vm_compute; discriminate|reflexivity]. }
  exists r, s'. split; [exact E|]. split; [exact Ha|]. exact (Hacc Ha).
Defined.

Lemma handleFrame_refused_syn_not_consumed_witness :
  ∃ s', handleFrame (Written None) AcceptSent (FData (syn 3 ping)) server_gone
          = Some (None, s') ∧
        s' = set_trace (trace server_gone ++ [EvGo (rstFrame 3 StreamRefused)]) server_gone ∧
        ¬ consumed (syn 3 ping) (new_events server_gone s').
Proof.
  apply (handleFrame_refused_syn_not_consumed (Written None) AcceptSent (syn 3 ping)
           server_gone); [reflexivity|vm_compute; reflexivity|reflexivity].
Defined.

Lemma handleSyn_accept_timeout_witness :
  ∃ s', handleSyn AcceptTimedOut (syn 3 ping) server = Some (None, s') ∧
        trace s' = [EvSet 3; EvGo (rstFrame 3 AcceptQueueFull); EvStreamData 3 (syn 3 ping)] ∧
        streams s' !! 3 = Some (record_data (fresh 3 defaultWindowSize false) (syn 3 ping)).
Proof.
  destruct (handleSyn_accept_timeout AcceptTimedOut (syn 3 ping) server)
    as (s' & Hr & Htrace & Hstreams & _).
  - vm_compute. discriminate.
  - vm_compute. discriminate.
  - reflexivity.
  - by left.
  - reflexivity.
  - exists s'. split; [exact Hr|]. split; [exact Htrace|].
    rewrite Hstreams. apply lookup_insert_eq.
Defined.

(** ** GOAWAY (C5) *)

(** The client has opened 3, 5, 7 and 9 and the peer's GOAWAY names 5: the
    streams 7 and 9 are closed, 3 and 5 are not. *)
Lemma handleFrame_GoAway_witness :
  let f := {| LastStreamId := 5; GoAway_ErrorCode := NoError; Debug := ping |} in
  ∃ s', handleFrame (Written None) AcceptSent (FGoAway f) client_four = Some (None, s') ∧
        streams s' !! 3 = Some (fresh 3 defaultWindowSize false) ∧
        streams s' !! 5 = Some (fresh 5 defaultWindowSize false) ∧
        streams s' !! 7 = Some (record_close (fresh 7 defaultWindowSize false) remoteGoneAway) ∧
        streams s' !! 9 = Some (record_close (fresh 9 defaultWindowSize false) remoteGoneAway).
Proof.
  intros f.
  destruct (handleFrame_GoAway (Written None) AcceptSent f client_four)
    as (s' & Hr & _ & _ & _ & _ & Hstreams).
  exists s'. split; [exact Hr|]. split_and!.
  - apply (Hstreams 3 (fresh 3 defaultWindowSize false)); [vm_compute; reflexivity|].
    right. vm_compute. discriminate.
  - apply (Hstreams 5 (fresh 5 defaultWindowSize false)); [vm_compute; reflexivity|].
    right. vm_compute. discriminate.
  - apply (Hstreams 7 (fresh 7 defaultWindowSize false));
      [vm_compute; reflexivity|vm_compute; reflexivity|reflexivity].
  - apply (Hstreams 9 (fresh 9 defaultWindowSize false));
      [vm_compute; reflexivity|vm_compute; reflexivity|reflexivity].
Defined.

(** ** DATA for a stream that is gone (C6) *)

(** C6 as stated fails: stream 1 is not above [remote.lastId] on a fresh
    server and is not in the table, the transport ends after two of the four
    bytes of the body, and [handleFrame] returns [io.ErrUnexpectedEOF]. *)
Lemma handleFrame_absent_stream_short_body :
  uint32 1 ≤ lastId (remote server) ∧
  isLocal server 1 = false ∧
  streams server !! 1 = None ∧
  ∃ s', handleFrame (Written None) AcceptSent (FData (data 1 4 ["p"; "i"]%byte)) server
          = Some (Some (foreign io_ErrUnexpectedEOF), s').
Proof.
  split_and!; [vm_compute; discriminate|reflexivity|reflexivity|].
  returns (handleFrame (Written None) AcceptSent (FData (data 1 4 ["p"; "i"]%byte)) server)
          (Some (foreign io_ErrUnexpectedEOF)).
  eexists. reflexivity.
Qed.

Lemma handleFrame_absent_stream_witness :
  (∀ r s', handleFrame (Written None) AcceptSent (FData (data 5 4 ping)) server
             = Some (r, s') →
           dead s' = true ∧ dieErr s' = Some (unassigned 5)) ∧
  handleFrame (Written None) AcceptSent (FData (data 1 4 ping)) server
    = Some (None, set_trace [EvDiscard 4; EvGo (rstFrame 1 StreamClosed)] server) ∧
  ∃ e, handleFrame (Written None) AcceptSent (FData (data 1 4 ["p"; "i"]%byte)) server
         = Some (Some (foreign e), set_trace [EvDiscard 2] server).
Proof.
  destruct (handleFrame_absent_stream (Written None) AcceptSent server) as [Hidle Habsent].
  split_and!.
  - intros r s'. apply (Hidle (FData (data 5 4 ping)) 5);
      [reflexivity|vm_compute; reflexivity|reflexivity].
  - apply (Habsent (data 1 4 ping));
      [reflexivity|vm_compute; split; [discriminate|reflexivity]
      |vm_compute; discriminate|reflexivity|vm_compute; discriminate|reflexivity].
  - apply (Habsent (data 1 4 ["p"; "i"]%byte));
      [reflexivity|vm_compute; split; [discriminate|reflexivity]
      |vm_compute; discriminate|reflexivity|reflexivity].
Defined.

(** ** Further runs *)

(** A client that has been closed. *)
Definition client_closed : session := run (CallClose (Written None)) client.

(** A client that has received the SYNs of the streams 2 and 4. *)
Definition client_two_syns : session :=
  runs [ReaderIter (Written None) AcceptSent (inr (FData (syn 2 ping)));
        ReaderIter (Written None) AcceptSent (inr (FData (syn 4 ping)))] client.

(** ** Frames in, frames out *)

(** A wire that ends cleanly under the reader of a fresh client. *)
Lemma reader_iter_read_error_witness :
  ∃ s', reader_iter (Written None) AcceptSent (inl io_EOF) client = Some (false, s') ∧
        dead s' = true ∧ dieErr s' = None.
Proof.
  returns (reader_iter (Written None) AcceptSent (inl io_EOF) client) false.
  edestruct (reader_iter_read_error (Written None) AcceptSent io_EOF client)
    as (_ & Hdead & _ & _ & Herr); [reflexivity|eassumption|].
  eexists. split; [reflexivity|]. split; [exact Hdead|exact Herr].
Defined.

(** A DATA frame for stream 3 of a client that has opened it. *)
Lemma handleFrame_delivers_witness :
  handleFrame (Written None) AcceptSent (FData (data 3 4 ping)) client_four
    = Some (None,
            set_streams (<[3 := record_data (fresh 3 defaultWindowSize false) (data 3 4 ping)]>
                           (streams client_four))
              (set_trace (trace client_four ++ delivery (FData (data 3 4 ping))) client_four)).
Proof.
  refine (proj1 (handleFrame_delivers (Written None) AcceptSent (FData (data 3 4 ping)) 3
                   (fresh 3 defaultWindowSize false) _ None client_four _ _ _ _)).
  - reflexivity.
  - vm_compute. discriminate.
  - vm_compute. reflexivity.
  - reflexivity.
Defined.

(** A RST for stream 1 of a fresh client, which has opened no stream. *)
Lemma handleFrame_ignores_witness :
  handleFrame (Written None) AcceptSent
    (FRst {| Rst_StreamId := 1; Rst_ErrorCode := StreamClosed |}) client
  = Some (None, client).
Proof.
  apply (handleFrame_ignores (Written None) AcceptSent
           (FRst {| Rst_StreamId := 1; Rst_ErrorCode := StreamClosed |}) client).
  split; [vm_compute; discriminate|reflexivity].
Defined.

(** The reader of a fresh client on a wire that ends at once: what comes
    after is not read. *)
Lemma reader_stops_witness :
  ∃ s', reader [(Written None, AcceptSent, inl io_EOF)] client = Some (tt, s') ∧
        acceptClosed s' = true ∧
        reader [(Written None, AcceptSent, inl io_EOF);
                (Written None, AcceptSent, inr (FData (syn 2 ping)))] client
          = Some (tt, s').
Proof.
  returns (reader [(Written None, AcceptSent, inl io_EOF)] client) tt.
  edestruct (reader_stops [(Written None, AcceptSent, inl io_EOF)]
               [(Written None, AcceptSent, inr (FData (syn 2 ping)))] client)
    as (Hclosed & _ & Hmore); [apply reachable_invariant, reachable_new|eassumption|].
  eexists. split; [reflexivity|]. split; [exact Hclosed|exact Hmore].
Defined.

(** After the wire has ended under a fresh client, [AcceptStream] says that
    the remote peer closed the session. *)
Lemma AcceptStream_after_reader_witness :
  ∃ s', reader [(Written None, AcceptSent, inl io_EOF)] client = Some (tt, s') ∧
        AcceptStream s' = Some (inl (fmt_Errorf "session closed by remote peer" []), s').
Proof.
  returns (reader [(Written None, AcceptSent, inl io_EOF)] client) tt.
  eexists. split; [reflexivity|].
  eapply (AcceptStream_after_reader (Written None) AcceptSent io_EOF client);
    [reflexivity|reflexivity|eassumption].
Defined.

(** ** Going away and shutting down *)

(** A server sends its GOAWAY, opens a stream of its own, and still refuses
    the client's SYN 3. *)
Lemma GoAway_refuses_for_ever_witness :
  ∃ s1, GoAway (Written None) NoError [] zeroTime server = Some (None, s1) ∧
    let s2 := runs [CallOpenStream (Written None)] s1 in
    goneAway (local s2) = 1 ∧
    handleSyn AcceptSent (syn 3 ping) s2
      = Some (None, set_trace (trace s2 ++ [EvGo (rstFrame 3 StreamRefused)]) s2).
Proof.
  returns (GoAway (Written None) NoError [] zeroTime server) (@None error).
  eexists. split; [reflexivity|].
  eapply (GoAway_refuses_for_ever (Written None) NoError [] zeroTime server None _
            [CallOpenStream (Written None)] AcceptSent (syn 3 ping));
    [eassumption|reflexivity].
Defined.

(** A closed client refuses the server's SYN 2. *)
Lemma die_refuses_for_ever_witness :
  ∃ s1, die (Written None) None client = Some (None, s1) ∧
    handleSyn AcceptSent (syn 2 ping) (runs [CallWait] s1)
      = Some (None, set_trace (trace (runs [CallWait] s1)
                                 ++ [EvGo (rstFrame 2 StreamRefused)])
                      (runs [CallWait] s1)).
Proof.
  returns (die (Written None) None client) (@None error).
  eexists. split; [reflexivity|].
  eapply (die_refuses_for_ever (Written None) None client None _ [CallWait]
            AcceptSent (syn 2 ping));
    [reflexivity|eassumption|reflexivity].
Defined.

(** A client with four streams gets the GOAWAY of the server; after it,
    and after the removal of a stream, [OpenStream] opens nothing. *)
Lemma remote_GoAway_stops_OpenStream_witness :
  ∃ s1, handleFrame (Written None) AcceptSent
          (FGoAway {| LastStreamId := 5; GoAway_ErrorCode := NoError; Debug := [] |})
          client_four = Some (None, s1) ∧
    OpenStream (Written None) (runs [CallRemoveStream 3] s1)
      = Some (inl remoteGoneAway, runs [CallRemoveStream 3] s1).
Proof.
  returns (handleFrame (Written None) AcceptSent
             (FGoAway {| LastStreamId := 5; GoAway_ErrorCode := NoError; Debug := [] |})
             client_four) (@None error).
  eexists. split; [reflexivity|].
  eapply (remote_GoAway_stops_OpenStream (Written None) AcceptSent _ client_four None _
            [CallRemoveStream 3] (Written None)).
  eassumption.
Defined.

(** A client that has closed: [dead] is closed once in its trace. *)
Lemma dead_closed_once_witness :
  reachable (run (CallClose (Written None)) client) ∧
  dead (run (CallClose (Written None)) client) = true ∧
  closes (trace (run (CallClose (Written None)) client))
    = (if dead (run (CallClose (Written None)) client) then 1 else 0)%nat.
Proof.
  assert (Hreach : reachable (run (CallClose (Written None)) client))
    by apply reachable_run, reachable_new.
  split; [exact Hreach|]. split; [vm_compute; reflexivity|].
  exact (dead_closed_once _ Hreach).
Defined.

(** ** Ids *)

(** A client that has received the SYN of stream 2 holds one stream in its
    accept channel. *)
Lemma accept_queue_bounded_witness :
  let s := run (ReaderIter (Written None) AcceptSent (inr (FData (syn 2 ping)))) client in
  reachable s ∧ accept s = [2] ∧ Z.of_nat (length (accept s)) ≤ defaultAcceptQueueDepth.
Proof.
  intros s.
  assert (Hreach : reachable s) by apply reachable_run, reachable_new.
  split; [exact Hreach|]. split; [vm_compute; reflexivity|].
  exact (accept_queue_bounded s Hreach).
Defined.

(** A client opens stream 3 and then receives the SYN of stream 2. *)
Lemma lastId_bounds_table_witness :
  let cs1 := [CallOpenStream (Written None)] in
  let cs2 := [ReaderIter (Written None) AcceptSent (inr (FData (syn 2 ping)))] in
  Forall op_typed (cs1 ++ cs2) ∧
  table_bounded (runs (cs1 ++ cs2) client) ∧
  lastId (local (runs cs1 client)) ≤ lastId (local (runs (cs1 ++ cs2) client)) ∧
  lastId (remote (runs cs1 client)) ≤ lastId (remote (runs (cs1 ++ cs2) client)).
Proof.
  intros cs1 cs2.
  assert (Htyped : Forall op_typed (cs1 ++ cs2)).
  { repeat apply Forall_cons_2; [exact I| |apply Forall_nil_2].
    split; [discriminate|reflexivity]. }
  split; [exact Htyped|]. exact (lastId_bounds_table true cs1 cs2 Htyped).
Defined.

(** A window increment for stream 5 of a client that has opened the
    streams 3 to 9. *)
Lemma live_stream_frame_delivered_witness :
  let f := {| WndInc_StreamId := 5; WndInc_Inc := 10 |} in
  handleFrame (Written None) AcceptSent (FWndInc f) client_four
    = Some (None,
            set_streams (<[5 := record_wndinc (fresh 5 defaultWindowSize false) f]>
                           (streams client_four))
              (set_trace (trace client_four ++ delivery (FWndInc f)) client_four)).
Proof.
  intros f.
  refine (live_stream_frame_delivered true (replicate 4 (CallOpenStream (Written None)))
            (Written None) AcceptSent (FWndInc f) 5 (fresh 5 defaultWindowSize false)
            _ None _ _ _ _).
  - repeat apply Forall_cons_2; (exact I || apply Forall_nil_2).
  - reflexivity.
  - vm_compute. reflexivity.
  - reflexivity.
Defined.


(** A client opens stream 3 and the server, fresh, accepts it. *)
Lemma open_accept_round_trip_witness :
  ∃ c' r peer',
    OpenStream (Written None) client = Some (inr (fresh 3 defaultWindowSize false), c') ∧
    handleFrame (Written None) AcceptSent (FData (packedData 3 [] false true)) server
      = Some (r, peer') ∧
    accept peer' = [3] ∧ lastId (remote peer') = 3.
Proof.
  returns (OpenStream (Written None) client)
          (inr (A:=error) (fresh 3 defaultWindowSize false)).
  match goal with
  | E : OpenStream _ _ = Some _ |- _ =>
      edestruct (open_accept_round_trip _ _ _ _ (Written None) server
                   (reachable_new true) eq_refl E)
        as (_ & r & peer' & Hframe & Haccept & _ & Hlast)
  end.
  - intros id. reflexivity.
  - vm_compute. discriminate.
  - vm_compute. discriminate.
  - vm_compute. reflexivity.
  - eexists _, r, peer'. split; [reflexivity|]. split; [exact Hframe|].
    split; [exact Haccept|exact Hlast].
Defined.


(** The write of the SYN fails: [OpenStream] returns the error with the
    mutex released. *)
Lemma OpenStream_unlocks_witness :
  ∃ s', OpenStream (Written (Some io_ErrUnexpectedEOF)) client
          = Some (inl (foreign io_ErrUnexpectedEOF), s') ∧
        newStreamMutex s' = false.
Proof.
  returns (OpenStream (Written (Some io_ErrUnexpectedEOF)) client)
          (inl (B:=stream) (foreign io_ErrUnexpectedEOF)).
  eexists. split; [reflexivity|].
  eapply (OpenStream_unlocks (Written (Some io_ErrUnexpectedEOF)) client);
    [eassumption|vm_compute; discriminate|vm_compute; reflexivity].
Defined.

(** Ids 3 and 5 are client ids. *)
Lemma parity_of_ids_witness :
  isClient 3 = Z.odd 3 ∧ isServer 3 = Z.even 3 ∧
  isClient (3 + 2) = isClient 3 ∧ isServer (3 + 2) = isServer 3 ∧
  isServer 0 = true.
Proof. apply (parity_of_ids 3); [discriminate|reflexivity]. Defined.

(** ** The writer *)

(** A frame handed to a writer that writes it. *)
Lemma writeFrame_errors_witness :
  ∃ s', writeFrame (Written None) (FData (syn 3 ping)) zeroTime client = Some (None, s') ∧
        trace s' = trace client ++ [EvEnqueue (FData (syn 3 ping))].
Proof.
  returns (writeFrame (Written None) (FData (syn 3 ping)) zeroTime client) (@None error).
  edestruct (writeFrame_errors (Written None) (FData (syn 3 ping)) zeroTime client)
    as (_ & _ & Htrace & _); [eassumption|].
  eexists. split; [reflexivity|]. exact (Htrace eq_refl).
Defined.

(** The GOAWAY of a fresh server names stream 1. *)
Lemma GoAway_frame_witness :
  ∃ s', GoAway (Written None) NoError [] zeroTime server = Some (None, s') ∧
        goneAway (local s') = 1 ∧
        trace s' = trace server
                     ++ [EvEnqueue (FGoAway {| LastStreamId := 1;
                                               GoAway_ErrorCode := NoError;
                                               Debug := [] |})].
Proof.
  returns (GoAway (Written None) NoError [] zeroTime server) (@None error).
  edestruct (GoAway_frame (Written None) NoError [] zeroTime server)
    as (Hgone & _ & _ & _ & _ & Htrace & _); [eassumption|].
  eexists. split; [reflexivity|]. split; [exact Hgone|exact (Htrace eq_refl)].
Defined.


(** ** Streams that are gone *)

(** Stream 3 of a client is removed, and a DATA frame comes in for it. *)
Lemma removeStream_then_data_witness :
  ∃ s1, removeStream 3 client_four = Some (tt, s1) ∧
    handleFrame (Written None) AcceptSent (FData (data 3 4 ping)) s1
      = Some (None, set_trace (trace s1 ++ [EvDiscard 4; EvGo (rstFrame 3 StreamClosed)]) s1).
Proof.
  destruct (removeStream_then_data 3 client_four) as (s1 & Hremove & _ & _ & Hdata).
  exists s1. split; [exact Hremove|].
  apply (Hdata (Written None) AcceptSent (data 3 4 ping)).
  - reflexivity.
  - reflexivity.
  - split; [discriminate|reflexivity].
  - vm_compute. discriminate.
  - vm_compute. discriminate.
  - reflexivity.
Defined.

(** The SYN of stream 2 at a fresh client, and the [AcceptStream] that
    takes it. *)
Lemma handleSyn_accepted_in_order_witness :
  ∃ s1, handleSyn AcceptSent (syn 2 ping) client = Some (None, s1) ∧
        accept s1 = [2] ∧
        AcceptStream s1 = Some (inr 2, set_accept [] s1).
Proof.
  destruct (handleSyn_accepted_in_order (syn 2 ping) client)
    as (s1 & Hsyn & _ & _ & Haccept & Htake).
  - vm_compute. discriminate.
  - vm_compute. discriminate.
  - reflexivity.
  - vm_compute. reflexivity.
  - exists s1. split; [exact Hsyn|]. split; [exact Haccept|exact Htake].
Defined.

(** A DATA frame for a stream that the server does not have. *)
Lemma handleFrame_data_consumed_witness :
  ∃ s', handleFrame (Written None) AcceptSent (FData (data 1 4 ping)) server
          = Some (None, s') ∧
        consumed (data 1 4 ping) (new_events server s').
Proof.
  returns (handleFrame (Written None) AcceptSent (FData (data 1 4 ping)) server)
          (@None error).
  eexists. split; [reflexivity|].
  eapply (handleFrame_data_consumed (Written None) AcceptSent (data 1 4 ping) server).
  - split; [discriminate|reflexivity].
  - left. reflexivity.
  - eassumption.
Defined.

(** ** The reader after the shutdown, and the accept channel *)

(** The SYN of stream 2 under the reader of a fresh client: the loop goes
    on. *)
Lemma reader_iter_frame_witness :
  ∃ s', reader_iter (Written None) AcceptSent (inr (FData (syn 2 ping))) client
          = Some (true, s') ∧
        handleFrame (Written None) AcceptSent (FData (syn 2 ping)) client = Some (None, s') ∧
        dead s' = false.
Proof.
  returns (reader_iter (Written None) AcceptSent (inr (FData (syn 2 ping))) client) true.
  edestruct (reader_iter_frame (Written None) AcceptSent (FData (syn 2 ping)) client)
    as (r & s1 & Hframe & [Hgoes _] & Hnil & _); [eassumption|].
  destruct (Hgoes eq_refl) as [-> Hdead]. destruct (Hnil eq_refl).
  eexists. split; [reflexivity|]. split; [exact Hframe|exact Hdead].
Defined.

(** A frame that reaches the reader of a closed client. *)
Lemma reader_leaves_after_shutdown_witness :
  ∃ s', reader_iter (Written None) AcceptSent (inr (FData (syn 2 ping))) client_closed
          = Some (false, s') ∧
        same_shutdown client_closed s'.
Proof.
  returns (reader_iter (Written None) AcceptSent (inr (FData (syn 2 ping))) client_closed)
          false.
  eexists. split; [reflexivity|].
  eapply (reader_leaves_after_shutdown (Written None) AcceptSent
            (inr (FData (syn 2 ping))) client_closed);
    [vm_compute; reflexivity|vm_compute; reflexivity|eassumption].
Defined.

(** The write of the SYN of stream 3 fails: the stream stays in the
    table. *)
Lemma OpenStream_failure_keeps_stream_witness :
  ∃ s', OpenStream (Written (Some io_ErrUnexpectedEOF)) client
          = Some (inl (foreign io_ErrUnexpectedEOF), s') ∧
        lastId (local s') = 3 ∧
        streams s' = <[3 := fresh 3 defaultWindowSize false]> (streams client).
Proof.
  returns (OpenStream (Written (Some io_ErrUnexpectedEOF)) client)
          (inl (B:=stream) (foreign io_ErrUnexpectedEOF)).
  edestruct (OpenStream_failure_keeps_stream (Written (Some io_ErrUnexpectedEOF)) client)
    as (Hlast & Hstreams & _);
    [apply reachable_new|reflexivity|vm_compute; discriminate|eassumption|discriminate|].
  eexists. split; [reflexivity|]. split; [exact Hlast|exact Hstreams].
Defined.

(** A client with four streams is closed. *)
Lemma Close_then_Wait_witness :
  ∃ s', Close (Written None) client_four = Some (None, s') ∧
        streams s' !! 3
          = Some (record_close (fresh 3 defaultWindowSize false)
                    (fmt_Errorf "Session closed" [])) ∧
        Wait s' = Some ((None, None, []), s') ∧
        Close (Written None) s' = Some (Some sessionClosed, s').
Proof.
  assert (Hthree : streams client_four !! 3 = Some (fresh 3 defaultWindowSize false))
    by (vm_compute; reflexivity).
  assert (Herror : remoteError client_four = None) by (vm_compute; reflexivity).
  assert (Hdebug : remoteDebug client_four = []) by (vm_compute; reflexivity).
  returns (Close (Written None) client_four) (@None error).
  edestruct (Close_then_Wait (Written None) client_four)
    as (_ & Hstreams & Hwait & Hagain); [vm_compute; reflexivity|eassumption|].
  eexists. split; [reflexivity|]. split; [|split; [|exact Hagain]].
  - rewrite (Hstreams 3), Hthree. reflexivity.
  - rewrite Hwait, Herror, Hdebug. reflexivity.
Defined.

(** The second [AcceptStream] of a client that has received two SYNs. *)
Lemma AcceptStream_drains_queue_witness :
  let s1 := runs (replicate 1 CallAcceptStream) client_two_syns in
  accept client_two_syns = [2; 4] ∧
  accept s1 = drop 1 (accept client_two_syns) ∧
  AcceptStream s1 = Some (inr 4, set_accept (drop 2 (accept client_two_syns)) s1).
Proof.
  intros s1.
  assert (Hqueue : accept client_two_syns = [2; 4]) by (vm_compute; reflexivity).
  split; [exact Hqueue|].
  destruct (AcceptStream_drains_queue 1 client_two_syns) as (Hrest & Hnext & _).
  - rewrite Hqueue. repeat constructor.
  - split; [exact Hrest|]. apply Hnext. rewrite Hqueue. reflexivity.
Defined.
